(** * grab-judicial-nominees: a shallow embedding and its properties

    The script walks a paginated listing of judicial nominees, visits every
    profile that has no output file yet, flattens the profile body to plain
    text and writes one file per nominee.  This development embeds
    [slugify_name], [html_to_text], [collect_all_nominee_links],
    [scrape_nominee] and [main] of [grab-judicial-nominees.py] and proves
    the properties the specification states about them.

    Conventions.
    - A Python [str] is a list of Unicode code points ([list N]); [lit]
      turns a Rocq string literal into one.
    - The browser page and BeautifulSoup are library code.  The rendered
      web is a record of oracles ([web]); the parser is a pair of
      variables, [parse] from markup to parse trees and [rejects] for the
      markup it raises on.
    - Effects (the action log of the browser, the output directory, raised
      exceptions) are threaded through a small state-and-exception monad. *)

From Stdlib Require Import NArith String Ascii List Sorted.
From stdpp Require Import base option list sorting gmap.

Set Default Proof Using "Type".
Local Open Scope N_scope.

(** ** Python strings *)

Abbreviation str := (list N).

Fixpoint lit (s : string) : str :=
  match s with
  | EmptyString => []
  | String a s' => N_of_ascii a :: lit s'
  end.

Arguments lit : simpl never.

Definition nl : N := 10.      (* "\n" *)
Definition slash : N := 47.   (* "/" *)

(** [bool(s)]: a string is truthy when it is not empty. *)
Definition truthy {A} (s : list A) : bool :=
  match s with [] => false | _ :: _ => true end.

(** [s.startswith(p)] *)
Fixpoint startswith (p s : str) : bool :=
  match p, s with
  | [], _ => true
  | _ :: _, [] => false
  | a :: p', b :: s' => (a =? b) && startswith p' s'
  end.

(** [str.isspace] on one code point: the characters [str.strip()] removes. *)
Definition isspace (c : N) : bool :=
  ((9 <=? c) && (c <=? 13)) || ((28 <=? c) && (c <=? 32))
  || (c =? 133) || (c =? 160) || (c =? 5760)
  || ((8192 <=? c) && (c <=? 8202))
  || (c =? 8232) || (c =? 8233) || (c =? 8239) || (c =? 8287) || (c =? 12288).

(** Dropping the leading, resp. trailing, elements that satisfy [p]. *)
Fixpoint drop_leading {A} (p : A -> bool) (l : list A) : list A :=
  match l with
  | [] => []
  | x :: l' => if p x then drop_leading p l' else l
  end.

Definition drop_trailing {A} (p : A -> bool) (l : list A) : list A :=
  rev (drop_leading p (rev l)).

(** [s.strip()] and [s.rstrip("/")] *)
Definition strip (s : str) : str := drop_trailing isspace (drop_leading isspace s).
Definition rstrip_slash (s : str) : str := drop_trailing (N.eqb slash) s.

(** [s.split(sep)] for a one-character separator; never the empty list. *)
Fixpoint split (sep : N) (s : str) : list str :=
  match s with
  | [] => [[]]
  | c :: s' =>
      if c =? sep then [] :: split sep s'
      else match split sep s' with
           | [] => [[c]]
           | p :: ps => (c :: p) :: ps
           end
  end.

(** [sep.join(l)] *)
Fixpoint join (sep : str) (l : list str) : str :=
  match l with
  | [] => []
  | [x] => x
  | x :: l' => x ++ sep ++ join sep l'
  end.

(** [s.lower()] on the ASCII letters (tag names are ASCII). *)
Definition lower (s : str) : str :=
  map (fun c => if (65 <=? c) && (c <=? 90) then c + 32 else c) s.

(** ** [slugify_name] *)

(** The anchor [$] without [re.MULTILINE]: the end of the string, or just
    before a line feed that ends the string. *)
Definition at_end (s : str) : bool :=
  match s with
  | [] => true
  | [c] => c =? nl
  | _ => false
  end.

(** [/?$]: the optional slash is greedy, the matcher tries it first. *)
Definition opt_slash_end (s : str) : bool :=
  match s with
  | c :: t => if c =? slash then at_end t || at_end s else at_end s
  | [] => at_end s
  end.

(** [([^/]+)/?$] from the start of [s]: the group is greedy, so the longer
    group is tried before the matcher falls back to ending it here. *)
Fixpoint group_tail (s : str) : option str :=
  match s with
  | [] => None
  | c :: t =>
      if c =? slash then None
      else match group_tail t with
           | Some g => Some (c :: g)
           | None => if opt_slash_end t then Some [c] else None
           end
  end.

(** The capture of [re.search(r"/nominee/([^/]+)/?$", url)]: the match at
    the leftmost start position. *)
Definition match_here (s : str) : option str :=
  if startswith (lit "/nominee/") s
  then group_tail (drop (length (lit "/nominee/")) s)
  else None.

Fixpoint re_search (url : str) : option str :=
  match match_here url with
  | Some g => Some g
  | None => match url with
            | [] => None
            | _ :: url' => re_search url'
            end
  end.

Definition slugify_name (url : str) : str :=
  match re_search url with
  | Some g => g
  | None =>
      let parts := List.filter truthy (split slash (rstrip_slash url)) in
      match last parts with
      | Some p => p
      | None => lit "unknown"
      end
  end.

(** ** [html_to_text] *)

(** BeautifulSoup's parse tree: text ([NavigableString], [CData]), strings
    that [get_text] leaves out ([Comment], the content of [script] and
    [style], declarations) and tags with their contents. *)
#[warnings="-register-all"]
Inductive node :=
| NavigableString (s : str)
| Comment (s : str)
| Tag (name : str) (contents : list node).

Abbreviation soup := (list node).

(** [tag.descendants]: every node below, in document order. *)
Fixpoint descendants (n : node) : list node :=
  match n with
  | Tag _ cs => flat_map (fun c => c :: descendants c) cs
  | _ => []
  end.

Definition soup_descendants (s : soup) : list node :=
  flat_map (fun c => c :: descendants c) s.

Definition tag_name (n : node) : str :=
  match n with Tag name _ => name | _ => [] end.

Definition str_eqb (a b : str) : bool := bool_decide (a = b).

(** [soup.find_all(names)]: the tags below the root whose name is listed. *)
Definition find_all (names : list str) (s : soup) : list node :=
  List.filter
    (fun n => match n with
              | Tag name _ => existsb (str_eqb name) names
              | _ => false
              end)
    (soup_descendants s).

(** The strings [get_text(strip=True)] yields: each text node below the
    tag, stripped, the empty ones left out. *)
Definition stripped_strings (n : node) : list str :=
  flat_map
    (fun d => match d with
              | NavigableString s => if truthy (strip s) then [strip s] else []
              | _ => []
              end)
    (descendants n).

(** [tag.get_text(separator=sep, strip=True)] *)
Definition get_text (sep : str) (n : node) : str :=
  join sep (stripped_strings n).

Definition block_tags : list str :=
  [lit "p"; lit "h1"; lit "h2"; lit "h3"; lit "h4"; lit "h5"; lit "h6"].

(** One turn of the [for tag in ...] loop on the list [lines]. *)
Definition emit (lines : list str) (tag : node) : list str :=
  let text := get_text (lit " ") tag in
  if negb (truthy text) then lines
  else
    let name := lower (tag_name tag) in
    let lines :=
      if startswith (lit "h") name
      then (if truthy lines then lines ++ [[]] else lines) ++ [text]
      else lines ++ [text] in
    lines ++ [[]].

(** [while lines and not lines[-1]: lines.pop()] *)
Definition pop_blank (lines : list str) : list str :=
  drop_trailing (fun l => negb (truthy l)) lines.

Section Parser.
(** [BeautifulSoup(html, "html.parser")]: the top-level nodes of the tree. *)
Variable parse : str -> soup.

Definition text_lines (html : str) : list str :=
  pop_blank (fold_left emit (find_all block_tags (parse html)) []).

Definition html_to_text (html : str) : str :=
  join [nl] (text_lines html).
End Parser.

(** ** The browser, the output directory and the effects of a run *)

Definition BASE_URL : str := lit "https://afj.org".
Definition NOMINEES_URL : str := lit "https://afj.org/nominees/".
Definition OUTPUT_DIR : str := lit "candidates".

(** Exceptions raised inside the [try] block of the scraper: Playwright's
    [Error] and its subclasses, from the page operations, and
    [ParserRejectedMarkup], from BeautifulSoup.  All are subclasses of
    [Exception], so the handler [except Exception] catches each of them.
    [KeyboardInterrupt] and [SystemExit], which that handler lets through,
    are signals to the process and not outcomes of an operation. *)
Inductive exn :=
| Error (msg : str)
| TimeoutError (msg : str)
| TargetClosedError (msg : str)
| ParserRejectedMarkup (msg : str).

Inductive result (A : Type) :=
| Ok (a : A)
| Raise (e : exn).
Arguments Ok {A} a.
Arguments Raise {A} e.

(** The "Load More" control of a rendered listing. *)
Inductive control := Absent | Hidden | Visible.

(** A rendered state of the listing: the [href] attribute of each card
    anchor ([None] when the attribute is missing) and the control. *)
Record listing_state := {
  anchors : list (option str);
  load_more : control
}.

(** The content container of a profile page. *)
Record element := { inner_html : result str }.

(** What the page operations do on a profile URL: [page.goto], the settle
    wait, [page.query_selector("div.body1")]. *)
Record profile_page := {
  goto_outcome : result unit;
  settle_outcome : result unit;
  body1 : result (option element)
}.

(** The web as the run sees it: the listing after [n] clicks on the
    control, and every profile page. *)
Record web := {
  listing : nat -> listing_state;
  profile : str -> profile_page
}.

(** What a run does to the outside. *)
Inductive event :=
| Goto (url : str)
| Click (n : nat)
| WriteText (path text : str)
| Sleep.

(** The mutable state: the files of the output directory, by path, and
    the actions so far (oldest first). *)
Record state := {
  files : gmap str str;
  trace : list event
}.

Definition log (e : event) (st : state) : state :=
  {| files := files st; trace := trace st ++ [e] |}.

(** State and exceptions. *)
Definition M (A : Type) : Type := state -> result A * state.

Definition ret {A} (a : A) : M A := fun st => (Ok a, st).

Definition bind {A B} (m : M A) (k : A -> M B) : M B :=
  fun st =>
    match m st with
    | (Ok a, st') => k a st'
    | (Raise e, st') => (Raise e, st')
    end.

(** [try: body  except Exception as e: handler e] *)
Definition try_except {A} (body : M A) (handler : exn -> M A) : M A :=
  fun st =>
    match body st with
    | (Ok a, st') => (Ok a, st')
    | (Raise e, st') => handler e st'
    end.

Declare Scope io_scope.
Delimit Scope io_scope with io.
Notation "x <- c1 ;; c2" := (bind c1 (fun x => c2))
  (at level 100, c1 at next level, right associativity) : io_scope.
Notation "c1 ;; c2" := (bind c1 (fun _ => c2))
  (at level 100, right associativity) : io_scope.

(** An operation that logs [e] and has the outcome [r]. *)
Definition perform {A} (e : option event) (r : result A) : M A :=
  fun st => (r, match e with Some e => log e st | None => st end).

(** [out_path.exists()] and [out_path.write_text(text)] on the files of
    the output directory. *)
Definition path_exists (path : str) : M bool :=
  fun st => (Ok (bool_decide (is_Some (files st !! path))), st).

Definition write_text (path text : str) : M unit :=
  fun st => (Ok tt, {| files := <[path := text]> (files st);
                       trace := trace st ++ [WriteText path text] |}).

Definition sleep : M unit := perform (Some Sleep) (Ok tt).

Fixpoint for_each {A} (body : A -> M unit) (l : list A) : M unit :=
  match l with
  | [] => ret tt
  | x :: l' => (body x ;; for_each body l')%io
  end.

(** ** [collect_all_nominee_links] *)

(** [sorted] on strings: lexicographic on code points. *)
Fixpoint str_leb (a b : str) : bool :=
  match a, b with
  | [], _ => true
  | _ :: _, [] => false
  | x :: a', y :: b' => (x <? y) || ((x =? y) && str_leb a' b')
  end.

Definition str_le (a b : str) : Prop := Is_true (str_leb a b).

Definition sorted (links : gset str) : list str :=
  merge_sort str_le (elements links).

(** [href if href.startswith("http") else BASE_URL + href] *)
Definition full_url (href : str) : str :=
  if startswith (lit "http") href then href else BASE_URL ++ href.

(** The body of [for anchor in anchors]. *)
Definition add_anchor (links : gset str) (href : option str) : gset str :=
  match href with
  | Some h => if truthy h then {[ full_url h ]} ∪ links else links
  | None => links
  end.

(** The [while True] loop, entered with the listing in the state after [n]
    clicks.  It has no bound of its own; [fuel] bounds the unfolding, and
    [None] says that the loop was still running when the fuel ran out (the
    state returned holds what was done until then). *)
Fixpoint load_loop (w : web) (fuel n : nat) (links : gset str) (st : state)
  : option (gset str) * state :=
  match fuel with
  | O => (None, st)
  | S fuel' =>
      let links := fold_left add_anchor (anchors (listing w n)) links in
      match load_more (listing w n) with
      | Absent => (Some links, st)
      | Hidden => (Some links, st)
      | Visible => load_loop w fuel' (S n) links (log (Click n) st)
      end
  end.

Definition collect_all_nominee_links (w : web) (fuel : nat) (st : state)
  : option (list str) * state :=
  match load_loop w fuel 0%nat ∅ (log (Goto NOMINEES_URL) st) with
  | (Some links, st') => (Some (sorted links), st')
  | (None, st') => (None, st')
  end.

(** ** [scrape_nominee] and [main] *)

Section Run.
Variable parse : str -> soup.
(** The markup [BeautifulSoup] rejects, with the exception it raises. *)
Variable rejects : str -> option exn.
Variable w : web.

(** The call [html_to_text(html)] as the scraper makes it: the parser
    raises on the markup it rejects, and builds [parse html] otherwise. *)
Definition call_html_to_text (html : str) : M str :=
  perform None (match rejects html with
                | Some e => Raise e
                | None => Ok (html_to_text parse html)
                end).

(** The [try] block. *)
Definition scrape_body (url : str) : M (option str) :=
  (_ <- perform (Some (Goto url)) (goto_outcome (profile w url)) ;;
   _ <- perform None (settle_outcome (profile w url)) ;;
   el <- perform None (body1 (profile w url)) ;;
   match el with
   | None => ret None
   | Some el =>
       html <- perform None (inner_html el) ;;
       text <- call_html_to_text html ;;
       ret (Some text)
   end)%io.

Definition scrape_nominee (url : str) : M (option str) :=
  try_except (scrape_body url) (fun _ => ret None).

(** [OUTPUT_DIR / f"{slug}.txt"] *)
Definition out_path (url : str) : str :=
  OUTPUT_DIR ++ [slash] ++ slugify_name url ++ lit ".txt".

(** [if text:] on a value that is [None] or a string. *)
Definition has_text (text : option str) : bool :=
  match text with Some t => truthy t | None => false end.

(** The body of [for i, url in enumerate(all_links, 1)]. *)
Definition scrape_one (url : str) : M unit :=
  (saved <- path_exists (out_path url) ;;
   if saved then ret tt
   else
     text <- scrape_nominee url ;;
     _ <- (match text with
           | Some t => if truthy t then write_text (out_path url) t else ret tt
           | None => ret tt
           end) ;;
     sleep)%io.

Definition scrape_all (links : list str) : M unit :=
  for_each scrape_one links.

(** The run: collect, then scrape.  [OUTPUT_DIR.mkdir(exist_ok=True)] and
    the launch and close of the browser leave [state] as it is. *)
Definition main (fuel : nat) (st : state) : option (result unit) * state :=
  match collect_all_nominee_links w fuel st with
  | (Some all_links, st') =>
      match scrape_all all_links st' with
      | (r, st'') => (Some r, st'')
      end
  | (None, st') => (None, st')
  end.
End Run.

(** ** Vocabulary of the properties *)

(** The last non-empty segment, as a relation: [seg] has no slash, only
    slashes follow it, and it starts the string or follows a slash. *)
Definition last_segment (url seg : str) : Prop :=
  seg <> [] /\ (slash ∉ seg) /\
  exists a b, url = a ++ seg ++ b /\
              (a = [] \/ exists a', a = a' ++ [slash]) /\
              Forall (eq slash) b.

(** A URL of the shape [.../nominee/<slug>] or [.../nominee/<slug>/]. *)
Definition nominee_shape (url slug : str) : Prop :=
  slug <> [] /\ (slash ∉ slug) /\
  exists pre, url = pre ++ lit "/nominee/" ++ slug \/
              url = pre ++ lit "/nominee/" ++ slug ++ [slash].

(** The text of a block, as the loop extracts it. *)
Definition block_text (t : node) : str := get_text (lit " ") t.

Definition is_heading (t : node) : bool :=
  startswith (lit "h") (lower (tag_name t)).

(** The selected elements that are not skipped. *)
Definition blocks (s : soup) : list node :=
  List.filter (fun t => truthy (block_text t)) (find_all block_tags s).

(** A string that does not end in white space. *)
Definition ends_clean (s : str) : Prop :=
  forall c, last s = Some c -> isspace c = false.

(** The links gathered from the listing states [n], ..., [n + d]. *)
Fixpoint gather (w : web) (n d : nat) (links : gset str) : gset str :=
  let links := fold_left add_anchor (anchors (listing w n)) links in
  match d with
  | O => links
  | S d' => gather w (S n) d' links
  end.

(** The state after clicking in the listing states [n], ..., [n + d - 1]. *)
Definition clicked (n d : nat) (st : state) : state :=
  {| files := files st; trace := trace st ++ map Click (seq n d) |}.

(** The control is visible in the [d] states from [n] on and is absent or
    hidden in the next one. *)
Definition stops_after (w : web) (n d : nat) : Prop :=
  (forall j, (j < d)%nat -> load_more (listing w (n + j)) = Visible) /\
  load_more (listing w (n + d)) <> Visible.

(** The hrefs of a listing state that the loop keeps. *)
Definition links_of (ls : listing_state) (u : str) : Prop :=
  exists h, Some h ∈ anchors ls /\ h <> [] /\ u = full_url h.

Definition str_eq_dec (a b : str) : {a = b} + {a <> b} := decide (a = b).

Definition is_write (e : event) : bool :=
  match e with WriteText _ _ => true | _ => false end.

(** [st'] continues [st] with the events [evs]. *)
Definition extends (st st' : state) (evs : list event) : Prop :=
  trace st' = trace st ++ evs.

Section RunVocabulary.
Variable parse : str -> soup.
Variable rejects : str -> option exn.
Variable w : web.

(** What the scraper hands to its caller for a URL. *)
Definition scraped (url : str) : option str :=
  match goto_outcome (profile w url) with
  | Raise _ => None
  | Ok _ =>
      match settle_outcome (profile w url) with
      | Raise _ => None
      | Ok _ =>
          match body1 (profile w url) with
          | Raise _ => None
          | Ok None => None
          | Ok (Some el) =>
              match inner_html el with
              | Raise _ => None
              | Ok html =>
                  match rejects html with
                  | Some _ => None
                  | None => Some (html_to_text parse html)
                  end
              end
          end
      end
  end.

(** The write of the loop body: done when the scraper returned text. *)
Definition save (url : str) (st : state) : state :=
  match scraped url with
  | Some (c :: t) =>
      {| files := <[out_path url := c :: t]> (files st);
         trace := trace st ++ [WriteText (out_path url) (c :: t)] |}
  | _ => st
  end.

(** The loop body and the loop, as functions on states. *)
Definition visit (url : str) (st : state) : state :=
  if bool_decide (is_Some (files st !! out_path url)) then st
  else log Sleep (save url (log (Goto url) st)).

Definition visit_all (st : state) (links : list str) : state :=
  foldl (fun s u => visit u s) st links.

(** Every link of the worklist either has its file or yields no text. *)
Definition settled (st : state) (links : list str) : Prop :=
  forall u, u ∈ links ->
    is_Some (files st !! out_path u) \/ has_text (scraped u) = false.

End RunVocabulary.

(** The state after [n] passes of the scraping loop over a worklist. *)
Definition passes (parse : str -> soup) (rejects : str -> option exn)
    (w : web) (links : list str)
    (n : nat) (st : state) : state :=
  Nat.iter n (fun s => (scrape_all parse rejects w links s).2) st.

(** ** A small web for the examples *)

Definition katie : str := lit "https://afj.org/nominee/katie-lane/".
Definition jane : str := lit "https://afj.org/nominee/jane-roe/".
Definition john : str := lit "https://afj.org/nominee/john-doe/".

Definition katie_markup : str :=
  lit "<h2>Biography</h2><h3>Early life</h3><p>Born in <b>Montana</b>.</p><p> </p>".
Definition blank_markup : str := lit "<div><p> </p></div>".
Definition headings_markup : str := lit "<h1>heading1</h1><h2>heading2</h2>".

Definition headings_soup : soup :=
  [Tag (lit "h1") [NavigableString (lit "heading1")];
   Tag (lit "h2") [NavigableString (lit "heading2")]].

Definition blank_paragraph : node := Tag (lit "p") [NavigableString (lit " ")].

Definition katie_soup : soup :=
  [Tag (lit "h2") [NavigableString (lit "Biography")];
   Tag (lit "h3") [NavigableString (lit "Early life")];
   Tag (lit "p") [NavigableString (lit "Born in ");
                  Tag (lit "b") [NavigableString (lit "Montana")];
                  NavigableString (lit ".")];
   blank_paragraph].

(** The trees [html.parser] builds for the three fragments above. *)
Definition demo_parse (html : str) : soup :=
  if str_eqb html katie_markup then katie_soup
  else if str_eqb html headings_markup then headings_soup
  else if str_eqb html blank_markup then [Tag (lit "div") [blank_paragraph]]
  else [].

(** Markup the parser rejects, and a web whose every profile serves it. *)
Definition broken_markup : str := lit "<![if word]>".

Definition demo_rejects (html : str) : option exn :=
  if str_eqb html broken_markup
  then Some (ParserRejectedMarkup (lit "expected name token"))
  else None.

Definition broken_web : web :=
  {| listing := fun _ => {| anchors := []; load_more := Absent |};
     profile := fun _ =>
       {| goto_outcome := Ok tt; settle_outcome := Ok tt;
          body1 := Ok (Some {| inner_html := Ok broken_markup |}) |} |}.

(** Two listing states: the control is visible in the first and hidden in
    the second, which repeats a card of the first.  The profile of [katie]
    has a body, the one of [jane] a body without text, every other
    navigation times out. *)
Definition demo_web : web :=
  {| listing := fun n =>
       match n with
       | O => {| anchors := [Some (lit "/nominee/katie-lane/"); Some john; None; Some []];
                 load_more := Visible |}
       | S _ => {| anchors := [Some (lit "/nominee/jane-roe/");
                               Some (lit "/nominee/katie-lane/")];
                   load_more := Hidden |}
       end;
     profile := fun url =>
       if str_eqb url katie then
         {| goto_outcome := Ok tt; settle_outcome := Ok tt;
            body1 := Ok (Some {| inner_html := Ok katie_markup |}) |}
       else if str_eqb url jane then
         {| goto_outcome := Ok tt; settle_outcome := Ok tt;
            body1 := Ok (Some {| inner_html := Ok blank_markup |}) |}
       else
         {| goto_outcome := Raise (TimeoutError (lit "Timeout 30000ms exceeded."));
            settle_outcome := Ok tt;
            body1 := Ok None |} |}.

Definition fresh : state := {| files := ∅; trace := [] |}.

(** ** The path of a URL, in the words of the specification *)

(** What follows the first [://], or the whole string without one. *)
Fixpoint after_scheme (url : str) : option str :=
  if startswith (lit "://") url then Some (drop 3 url)
  else match url with
       | [] => None
       | _ :: url' => after_scheme url'
       end.

Fixpoint take_until (p : N -> bool) (s : str) : str :=
  match s with
  | [] => []
  | c :: s' => if p c then [] else c :: take_until p s'
  end.

(** The path component of a URL: after the scheme and the host, up to the
    query ([?]) or the fragment ([#]). *)
Definition spec_path (url : str) : str :=
  let rest := match after_scheme url with Some r => r | None => url end in
  take_until (fun c => (c =? 63) || (c =? 35))
             (drop_leading (fun c => negb (c =? slash)) rest).

(** The non-empty path segments of a URL. *)
Definition spec_path_segments (url : str) : list str :=
  List.filter truthy (split slash (spec_path url)).

(** ** Vocabulary of the further properties *)

(** A trace made of scrape attempts: each is a navigation, the write when
    there is one, and then one sleep. *)
Inductive attempts : list event -> Prop :=
| attempts_none : attempts []
| attempts_unsaved (u : str) (evs : list event) :
    attempts evs -> attempts (Goto u :: Sleep :: evs)
| attempts_saved (u path text : str) (evs : list event) :
    attempts evs -> attempts (Goto u :: WriteText path text :: Sleep :: evs).

(** A string that does not start with white space. *)
Definition starts_clean (s : str) : Prop :=
  forall c, head s = Some c -> isspace c = false.

(** The blank lines between a block and the block before it: one, and one
    more before a heading. *)
Definition gap (t : node) : list str :=
  if is_heading t then [[]; []] else [[]].

(** The lines of a sequence of blocks with text, in closed form. *)
Definition layout (bs : list node) : list str :=
  match bs with
  | [] => []
  | t :: ts => block_text t :: flat_map (fun u => gap u ++ [block_text u]) ts
  end.

Definition is_goto (e : event) : bool :=
  match e with Goto _ => true | _ => false end.

Definition is_sleep (e : event) : bool :=
  match e with Sleep => true | _ => false end.

(** The URLs navigated to, in order. *)
Definition goto_urls (evs : list event) : list str :=
  omap (fun e => match e with Goto u => Some u | _ => None end) evs.

Section StepVocabulary.
Variable parse : str -> soup.
Variable rejects : str -> option exn.
Variable w : web.

(** The events of one turn of the scraping loop, and of the loop. *)
Definition step_events (url : str) (st : state) : list event :=
  if bool_decide (is_Some (files st !! out_path url)) then []
  else Goto url ::
       match scraped parse rejects w url with
       | Some (c :: t) => [WriteText (out_path url) (c :: t)]
       | _ => []
       end ++ [Sleep].

Fixpoint run_events (links : list str) (st : state) : list event :=
  match links with
  | [] => []
  | u :: links' => step_events u st ++ run_events links' (visit parse rejects w u st)
  end.

End StepVocabulary.

(** A heading that wraps a paragraph, a list beside loose text, a listing
    whose control never goes away, and a listing whose cards have no usable
    href. *)
Definition nested_markup : str := lit "<h2><p>Note</p></h2>".

Definition list_markup : str := lit "<ul><li>First</li></ul>loose".

Definition nested_parse (html : str) : soup :=
  if str_eqb html nested_markup
  then [Tag (lit "h2") [Tag (lit "p") [NavigableString (lit "Note")]]]
  else if str_eqb html list_markup
  then [Tag (lit "ul") [Tag (lit "li") [NavigableString (lit "First")]];
        NavigableString (lit "loose")]
  else demo_parse html.

Definition busy_web : web :=
  {| listing := fun _ => {| anchors := [Some (lit "/nominee/katie-lane/")];
                            load_more := Visible |};
     profile := profile demo_web |}.

Definition bare_web : web :=
  {| listing := fun _ => {| anchors := [None; Some []]; load_more := Absent |};
     profile := profile demo_web |}.

(** * Properties *)

Example slug_katie : slugify_name (lit "https://example.org/nominee/katie-lane/") = lit "katie-lane".
Proof. reflexivity. Qed.
Example slug_bar : slugify_name (lit "https://example.org/foo/bar") = lit "bar".
Proof. reflexivity. Qed.
Example slug_unknown : slugify_name (lit "///") = lit "unknown".
Proof. reflexivity. Qed.

(** ** Lists and strings *)

Lemma startswith_app (p r : str) : startswith p (p ++ r) = true.
Proof.
  induction p as [|a p IH]; simpl; [done|].
  by rewrite N.eqb_refl, IH.
Qed.

Lemma startswith_inv (p s : str) :
  startswith p s = true -> s = p ++ drop (length p) s.
Proof.
  revert s. induction p as [|a p IH]; intros [|b s]; simpl; try done.
  intros [Hab Hp]%andb_prop. apply N.eqb_eq in Hab as ->.
  f_equal. by apply IH.
Qed.

Lemma drop_leading_all {A} (p : A -> bool) (l : list A) :
  Forall (fun x => p x = true) l -> drop_leading p l = [].
Proof. induction 1 as [|x l Hx _ IH]; simpl; [done|]. by rewrite Hx. Qed.

Lemma drop_leading_app_all {A} (p : A -> bool) (l r : list A) :
  Forall (fun x => p x = true) l -> drop_leading p (l ++ r) = drop_leading p r.
Proof. induction 1 as [|x l Hx _ IH]; simpl; [done|]. by rewrite Hx. Qed.

Lemma drop_trailing_app_all {A} (p : A -> bool) (l r : list A) :
  Forall (fun x => p x = true) r -> drop_trailing p (l ++ r) = drop_trailing p l.
Proof.
  intros Hr. unfold drop_trailing. rewrite rev_app_distr.
  rewrite drop_leading_app_all; [done|].
  apply Forall_forall. intros x Hx%list_elem_of_In%in_rev%list_elem_of_In.
  by eapply Forall_forall in Hr.
Qed.

Lemma drop_trailing_snoc {A} (p : A -> bool) (l : list A) (x : A) :
  p x = false -> drop_trailing p (l ++ [x]) = l ++ [x].
Proof.
  intros Hx. unfold drop_trailing. rewrite rev_app_distr. simpl.
  rewrite Hx. simpl. by rewrite rev_involutive.
Qed.

(** What is left after dropping the trailing elements ends in an element
    that was kept. *)
Lemma drop_leading_head {A} (p : A -> bool) (l : list A) :
  match drop_leading p l with
  | [] => True
  | x :: _ => p x = false
  end.
Proof.
  induction l as [|x l IH]; simpl; [done|].
  destruct (p x) eqn:Hx; [done|]. exact Hx.
Qed.

Lemma drop_trailing_last {A} (p : A -> bool) (l : list A) (x : A) :
  last (drop_trailing p l) = Some x -> p x = false.
Proof.
  unfold drop_trailing. intros H.
  pose proof (drop_leading_head p (rev l)) as Hh.
  destruct (drop_leading p (rev l)) as [|y r]; simpl in H; [done|].
  rewrite last_snoc in H. by injection H as <-.
Qed.

(** ** The slug of a profile URL *)

Lemma split_nonempty (sep : N) (s : str) : split sep s <> [].
Proof.
  induction s as [|c s IH]; simpl; [done|].
  destruct (c =? sep); [done|]. by destruct (split sep s).
Qed.

Lemma split_app_sep (sep : N) (x y : str) :
  split sep (x ++ sep :: y) = split sep x ++ split sep y.
Proof.
  induction x as [|c x IH]; simpl.
  - by rewrite N.eqb_refl.
  - destruct (c =? sep); [by rewrite IH|].
    rewrite IH. pose proof (split_nonempty sep x) as Hne.
    by destruct (split sep x).
Qed.

Lemma split_no_sep (sep : N) (s : str) : sep ∉ s -> split sep s = [s].
Proof.
  induction s as [|c s IH]; simpl; [done|].
  intros [Hc Hs]%not_elem_of_cons.
  destruct (N.eqb_spec c sep) as [->|_]; [done|].
  by rewrite IH.
Qed.

Lemma filter_truthy_snoc (l : list str) (seg : str) :
  seg <> [] -> List.filter truthy (l ++ [seg]) = List.filter truthy l ++ [seg].
Proof.
  intros Hseg. rewrite List.filter_app. simpl. by destruct seg.
Qed.

Lemma rstrip_slash_segment (a seg b : str) :
  seg <> [] -> slash ∉ seg -> Forall (eq slash) b ->
  rstrip_slash (a ++ seg ++ b) = a ++ seg.
Proof.
  intros Hne Hno Hb. unfold rstrip_slash.
  rewrite !app_assoc. rewrite drop_trailing_app_all.
  - destruct (exists_last Hne) as (s' & c & ->).
    rewrite app_assoc. apply drop_trailing_snoc.
    apply N.eqb_neq. intros <-. apply Hno. set_solver.
  - eapply Forall_impl; [exact Hb|]. intros x <-. apply N.eqb_refl.
Qed.

Lemma fallback_last_segment (url seg : str) :
  last_segment url seg ->
  last (List.filter truthy (split slash (rstrip_slash url))) = Some seg.
Proof.
  intros (Hne & Hno & a & b & -> & Ha & Hb).
  rewrite rstrip_slash_segment by done.
  destruct Ha as [->|[a' ->]].
  - simpl. rewrite split_no_sep by done. simpl. by destruct seg.
  - rewrite <- app_assoc. simpl. rewrite split_app_sep.
    rewrite (split_no_sep _ seg) by done.
    rewrite filter_truthy_snoc by done. apply last_snoc.
Qed.

Lemma nominee_shape_last_segment (url slug : str) :
  nominee_shape url slug -> last_segment url slug.
Proof.
  intros (Hne & Hno & pre & Hurl). split; [done|]. split; [done|].
  exists (pre ++ lit "/nominee/").
  destruct Hurl as [->| ->].
  - exists []. rewrite app_nil_r, <- app_assoc. split; [done|]. split; [|done].
    right. exists (pre ++ lit "/nominee"). by rewrite <- app_assoc.
  - exists [slash]. rewrite <- !app_assoc. split; [done|]. split; [|by repeat constructor].
    right. exists (pre ++ lit "/nominee"). by rewrite <- app_assoc.
Qed.

Lemma last_segment_unique (url s1 s2 : str) :
  last_segment url s1 -> last_segment url s2 -> s1 = s2.
Proof.
  intros H1%fallback_last_segment H2%fallback_last_segment. congruence.
Qed.

(** The anchored tail of the pattern. *)
Lemma opt_slash_end_no_nl (tail : str) :
  nl ∉ tail -> opt_slash_end tail = true -> tail = [] \/ tail = [slash].
Proof.
  intros Hnl. destruct tail as [|c t]; [by left|]. unfold opt_slash_end.
  assert (Hend : forall s : str, nl ∉ s -> at_end s = true -> s = []).
  { intros [|x [|y s]] Hs; simpl; try done.
    intros ->%N.eqb_eq. exfalso. apply Hs. set_solver. }
  destruct (N.eqb_spec c slash) as [->|Hc].
  - intros [Ht|Hs]%orb_prop.
    + right. f_equal. apply Hend; [|done]. set_solver.
    + by apply Hend in Hs.
  - intros Hs. by apply Hend in Hs.
Qed.

Lemma group_tail_inv (s g : str) :
  group_tail s = Some g ->
  g <> [] /\ (slash ∉ g) /\ exists tail, s = g ++ tail /\ opt_slash_end tail = true.
Proof.
  revert g. induction s as [|c t IH]; intros g; simpl; [done|].
  destruct (N.eqb_spec c slash) as [->|Hc]; [done|].
  destruct (group_tail t) as [g'|] eqn:Hg.
  - intros [= <-]. destruct (IH g' eq_refl) as (_ & Hno & tail & -> & Hend).
    split; [done|]. split; [|by exists tail].
    apply not_elem_of_cons. split; [congruence|done].
  - destruct (opt_slash_end t) eqn:Hend; [|done]. intros [= <-].
    split; [done|]. split; [|by exists t].
    apply not_elem_of_cons. split; [congruence|]. apply not_elem_of_nil.
Qed.

Lemma group_tail_app (g tail : str) :
  g <> [] -> slash ∉ g -> tail = [] \/ tail = [slash] ->
  group_tail (g ++ tail) = Some g.
Proof.
  intros Hne Hno Htail. induction g as [|c g IH]; [done|].
  apply not_elem_of_cons in Hno as [Hc Hno]. simpl.
  destruct (N.eqb_spec c slash) as [->|_]; [done|].
  destruct g as [|c' g'].
  - simpl. by destruct Htail as [-> | ->].
  - by rewrite IH.
Qed.

Lemma match_here_inv (s g : str) :
  match_here s = Some g ->
  g <> [] /\ (slash ∉ g) /\
  exists tail, s = lit "/nominee/" ++ g ++ tail /\ opt_slash_end tail = true.
Proof.
  unfold match_here. destruct (startswith _ s) eqn:Hs; [|done].
  intros (Hne & Hno & tail & Hd & Hend)%group_tail_inv.
  split; [done|]. split; [done|]. exists tail. split; [|done].
  apply startswith_inv in Hs. rewrite Hs at 1. by rewrite Hd.
Qed.

Lemma re_search_inv (url g : str) :
  re_search url = Some g ->
  g <> [] /\ (slash ∉ g) /\
  exists pre tail, url = pre ++ lit "/nominee/" ++ g ++ tail /\
                   opt_slash_end tail = true.
Proof.
  induction url as [|c url IH]; simpl.
  - by intros [=].
  - destruct (match_here (c :: url)) eqn:Hm.
    + intros [= <-].
      apply match_here_inv in Hm as (? & ? & tail & -> & ?).
      split; [done|]. split; [done|]. by exists [], tail.
    + intros (? & ? & pre & tail & -> & ?)%IH.
      split; [done|]. split; [done|]. by exists (c :: pre), tail.
Qed.

Lemma re_search_found (pre s : str) :
  is_Some (match_here s) -> is_Some (re_search (pre ++ s)).
Proof.
  intros Hs. induction pre as [|c pre IH]; simpl.
  - destruct Hs as [g Hg]. exists g.
    destruct s; cbn [re_search]; by rewrite Hg.
  - cbn [re_search]. destruct (match_here (c :: pre ++ s)); [by eauto|done].
Qed.

Lemma match_here_shape (slug tail : str) :
  slug <> [] -> slash ∉ slug -> tail = [] \/ tail = [slash] ->
  match_here (lit "/nominee/" ++ slug ++ tail) = Some slug.
Proof.
  intros Hne Hno Htail. unfold match_here.
  rewrite startswith_app, drop_app_length. by apply group_tail_app.
Qed.

(** Without a line feed in the URL, a match of the pattern is exactly the
    shape [.../nominee/<slug>] with an optional final slash. *)
Lemma re_search_shape (url g : str) :
  nl ∉ url -> re_search url = Some g -> nominee_shape url g.
Proof.
  intros Hnl (Hne & Hno & pre & tail & -> & Hend)%re_search_inv.
  split; [done|]. split; [done|]. exists pre.
  apply opt_slash_end_no_nl in Hend as [-> | ->].
  - left. by rewrite app_nil_r.
  - by right.
  - intros Hin. apply Hnl. rewrite !elem_of_app. auto.
Qed.

Lemma shape_re_search (url slug : str) :
  nl ∉ url -> nominee_shape url slug -> re_search url = Some slug.
Proof.
  intros Hnl Hshape.
  assert (is_Some (re_search url)) as [g Hg].
  { destruct Hshape as (Hne & Hno & pre & [-> | ->]).
    - apply re_search_found. rewrite <- (app_nil_r slug) at 1.
      rewrite match_here_shape; by eauto.
    - apply re_search_found. rewrite match_here_shape; by eauto. }
  rewrite Hg. f_equal.
  apply (last_segment_unique url); apply nominee_shape_last_segment; [|done].
  by apply re_search_shape.
Qed.

Lemma only_slashes_no_match (url : str) :
  Forall (eq slash) url -> re_search url = None.
Proof.
  intros Hall. destruct (re_search url) as [g|] eqn:Hg; [|done].
  apply re_search_inv in Hg as (_ & _ & pre & tail & -> & _).
  apply Forall_app in Hall as [_ Hall].
  change (lit "/nominee/") with (slash :: 110 :: lit "ominee/") in Hall.
  apply Forall_cons in Hall as [_ Hall]. by apply Forall_cons in Hall as [? _].
Qed.

(** A string with a character other than the slash has a last segment. *)
Lemma last_segment_exists (url : str) :
  ~ Forall (eq slash) url -> exists seg, last_segment url seg.
Proof.
  induction url as [|c url IH] using rev_ind; intros Hnot; [by destruct Hnot|].
  destruct (decide (c = slash)) as [->|Hc].
  - destruct IH as (seg & Hne & Hno & a & b & -> & Ha & Hb).
    { intros Hall. apply Hnot. apply Forall_app. by split; [|repeat constructor]. }
    exists seg. split; [done|]. split; [done|]. exists a, (b ++ [slash]).
    rewrite <- !app_assoc. split; [done|]. split; [done|].
    apply Forall_app. by split; [|repeat constructor].
  - assert (Hone : slash ∉ [c]).
    { intros Hin%list_elem_of_singleton. congruence. }
    destruct url as [|c' url _] using rev_ind.
    { exists [c]. split; [done|]. split; [done|]. exists [], []. by auto. }
    destruct (decide (c' = slash)) as [->|Hc'].
    { exists [c]. split; [done|]. split; [done|]. exists (url ++ [slash]), [].
      rewrite app_nil_r. by eauto. }
    destruct IH as (seg & Hne & Hno & a & b & Heq & Ha & Hb).
    { intros [_ [? _]%Forall_cons]%Forall_app. congruence. }
    destruct b as [|x b _] using rev_ind.
    + rewrite app_nil_r in Heq. exists (seg ++ [c]).
      split; [by destruct seg|]. split.
      { intros [?|?]%elem_of_app; [done|]. by apply Hone. }
      exists a, []. rewrite Heq, app_nil_r, <- app_assoc. by auto.
    + rewrite !app_assoc in Heq. apply app_inj_tail in Heq as [_ ->].
      apply Forall_app in Hb as [_ [? _]%Forall_cons]. congruence.
Qed.

(** C2, as the code has it.  For a URL, which holds no line feed: of the
    shape [.../nominee/<slug>/], with or without the final slash, the slug
    is [<slug>]; in every case it is the last non-empty piece of the whole
    string between slashes, where scheme, host and query count as pieces;
    every string with a character other than the slash has such a piece,
    and a string without one gives the constant [unknown].  So
    [https://example.org/] gives [example.org] and a nominee URL with the
    query [?court=8] gives [?court=8], while the two URLs of the
    specification give [katie-lane] and [bar]. *)
Theorem slugify_name_spec (url : str) (Hurl : nl ∉ url) :
  (forall slug, nominee_shape url slug -> slugify_name url = slug) /\
  (forall seg, last_segment url seg -> slugify_name url = seg) /\
  (~ Forall (eq slash) url -> exists seg, last_segment url seg) /\
  (Forall (eq slash) url -> slugify_name url = lit "unknown") /\
  slugify_name (lit "https://example.org/nominee/katie-lane/") = lit "katie-lane" /\
  slugify_name (lit "https://example.org/foo/bar") = lit "bar" /\
  slugify_name (lit "https://example.org/") = lit "example.org" /\
  slugify_name (lit "https://afj.org/nominee/katie-lane/?court=8") = lit "?court=8".
Proof.
  split; [|split; [|split; [|split; [|done]]]].
  - intros slug Hshape. unfold slugify_name.
    by rewrite (shape_re_search url slug).
  - intros seg Hseg. unfold slugify_name.
    destruct (re_search url) as [g|] eqn:Hg.
    + apply (last_segment_unique url); [|done].
      by apply nominee_shape_last_segment, re_search_shape.
    + by rewrite (fallback_last_segment url seg).
  - apply last_segment_exists.
  - intros Hall. unfold slugify_name.
    rewrite only_slashes_no_match by done.
    unfold rstrip_slash, drop_trailing. rewrite drop_leading_all; [done|].
    apply Forall_forall. intros x Hx%list_elem_of_In%in_rev%list_elem_of_In.
    eapply Forall_forall in Hall; [|done]. subst. apply N.eqb_refl.
Qed.

(** ** The text normalizer *)

Lemma drop_leading_app_keep {A} (p : A -> bool) (a b : list A) (x : A) :
  p x = false -> drop_leading p (a ++ x :: b) = drop_leading p a ++ x :: b.
Proof.
  intros Hx. induction a as [|y a IH]; simpl; [by rewrite Hx|].
  by destruct (p y).
Qed.

Lemma drop_trailing_app_keep {A} (p : A -> bool) (l r : list A) (x : A) :
  p x = false -> drop_trailing p (l ++ x :: r) = l ++ x :: drop_trailing p r.
Proof.
  intros Hx. unfold drop_trailing.
  rewrite rev_app_distr. simpl. rewrite <- app_assoc. simpl.
  rewrite drop_leading_app_keep by done.
  rewrite rev_app_distr. simpl. rewrite rev_involutive.
  by rewrite <- app_assoc.
Qed.

Lemma emit_skip (lines : list str) (t : node) :
  block_text t = [] -> emit lines t = lines.
Proof. unfold emit, block_text. by intros ->. Qed.

Lemma emit_block (lines : list str) (t : node) :
  block_text t <> [] ->
  emit lines t =
    lines ++ (if is_heading t && truthy lines then [[]] else [])
          ++ [block_text t; []].
Proof.
  unfold emit, block_text, is_heading. intros Hne.
  destruct (get_text (lit " ") t) as [|c text] eqn:Ht; [done|].
  cbn [truthy negb].
  destruct (startswith _ _); cbn [andb]; [destruct (truthy lines)|];
    by rewrite <- ?app_assoc.
Qed.

Lemma fold_emit_blocks (tags : list node) (lines : list str) :
  fold_left emit tags lines =
  fold_left emit (List.filter (fun t => truthy (block_text t)) tags) lines.
Proof.
  revert lines. induction tags as [|t tags IH]; intros lines; simpl; [done|].
  destruct (block_text t) as [|c text] eqn:Ht; simpl.
  - by rewrite emit_skip.
  - apply IH.
Qed.

Lemma fold_emit_extends (tags : list node) (lines : list str) :
  exists rest, fold_left emit tags lines = lines ++ rest.
Proof.
  revert lines. induction tags as [|t tags IH]; intros lines; simpl.
  - exists []. by rewrite app_nil_r.
  - destruct (IH (emit lines t)) as [rest ->].
    destruct (block_text t) as [|c text] eqn:Ht.
    + rewrite emit_skip by done. by exists rest.
    + rewrite emit_block by congruence. rewrite <- app_assoc. by eauto.
Qed.

Lemma join_snoc (sep : str) (l : list str) (x : str) :
  l <> [] -> join sep (l ++ [x]) = join sep l ++ sep ++ x.
Proof.
  induction l as [|y l IH]; [done|]. intros _.
  destruct l as [|z l]; [done|].
  change (join sep ((y :: z :: l) ++ [x]))
    with (y ++ sep ++ join sep ((z :: l) ++ [x])).
  rewrite IH by done. change (join sep (y :: z :: l)) with (y ++ sep ++ join sep (z :: l)).
  by rewrite <- !app_assoc.
Qed.

Lemma join_app (sep : str) (l1 l2 : list str) :
  l1 <> [] -> l2 <> [] ->
  join sep (l1 ++ l2) = join sep l1 ++ sep ++ join sep l2.
Proof.
  intros H1 H2. revert l1 H1.
  induction l2 as [|x l2 IH] using rev_ind; [done|]. intros l1 H1.
  destruct l2 as [|y l2].
  - simpl. by rewrite join_snoc.
  - rewrite app_assoc. rewrite join_snoc by (by destruct l1).
    rewrite IH by done. rewrite (join_snoc _ (y :: l2)) by done.
    by rewrite <- !app_assoc.
Qed.

Lemma last_join (sep : str) (l : list str) (x : str) :
  x <> [] -> last (join sep (l ++ [x])) = last x.
Proof.
  intros Hx. destruct l as [|y l]; [done|].
  rewrite join_snoc by done. rewrite !last_app.
  destruct (last x) eqn:Hl; [done|]. by apply last_None in Hl.
Qed.

Lemma strip_ends_clean (s : str) : ends_clean (strip s).
Proof. intros c Hc. by apply drop_trailing_last in Hc. Qed.

Lemma stripped_strings_clean (t : node) :
  Forall (fun p => p <> [] /\ ends_clean p) (stripped_strings t).
Proof.
  unfold stripped_strings. induction (descendants t) as [|d ds IH]; simpl; [done|].
  apply Forall_app. split; [|done].
  destruct d as [s| |]; try done.
  destruct (strip s) as [|c r] eqn:Hs; simpl; [done|].
  constructor; [|done]. split; [done|]. rewrite <- Hs. apply strip_ends_clean.
Qed.

Lemma get_text_ends_clean (sep : str) (t : node) : ends_clean (get_text sep t).
Proof.
  unfold get_text. pose proof (stripped_strings_clean t) as Hall.
  destruct (stripped_strings t) as [|p ps] using rev_ind; [done|].
  apply Forall_app in Hall as [_ [[Hne Hp] _]%Forall_cons].
  intros c. rewrite last_join by done. apply Hp.
Qed.

Lemma emit_ends_clean (lines : list str) (t : node) :
  Forall ends_clean lines -> Forall ends_clean (emit lines t).
Proof.
  intros Hlines.
  assert (Hnil : ends_clean []) by done.
  destruct (block_text t) as [|c text] eqn:Ht.
  - by rewrite emit_skip.
  - rewrite emit_block by congruence. rewrite !Forall_app. split; [done|]. split.
    + destruct (_ && _); by repeat constructor.
    + repeat constructor; [|done]. apply get_text_ends_clean.
Qed.

Lemma fold_emit_ends_clean (tags : list node) (lines : list str) :
  Forall ends_clean lines -> Forall ends_clean (fold_left emit tags lines).
Proof.
  revert lines. induction tags as [|t tags IH]; intros lines H; simpl; [done|].
  by apply IH, emit_ends_clean.
Qed.

Lemma drop_trailing_prefix {A} (p : A -> bool) (l : list A) :
  exists r, l = drop_trailing p l ++ r.
Proof.
  unfold drop_trailing.
  assert (H : forall k : list A, exists r, k = r ++ drop_leading p k).
  { induction k as [|x k [r IH]]; simpl; [by exists []|].
    destruct (p x); [|by exists []]. exists (x :: r). by rewrite IH at 1. }
  destruct (H (rev l)) as [r Hr]. exists (rev r).
  rewrite <- rev_app_distr, <- Hr. by rewrite rev_involutive.
Qed.

Lemma text_lines_last (parse : str -> soup) (html l : str) :
  last (text_lines parse html) = Some l -> l <> [] /\ ends_clean l.
Proof.
  unfold text_lines, pop_blank. intros Hl. split.
  - apply drop_trailing_last in Hl. by destruct l.
  - set (lines := fold_left emit _ _) in *.
    assert (Hall : Forall ends_clean lines) by by apply fold_emit_ends_clean.
    destruct (drop_trailing_prefix (fun l => negb (truthy l)) lines) as [r Hr].
    rewrite Hr in Hall. apply Forall_app in Hall as [Hall _].
    apply last_Some in Hl as [l' Hl]. rewrite Hl in Hall.
    by apply Forall_app in Hall as [_ [? _]%Forall_cons].
Qed.

(** C7. The output of the normalizer has no trailing blank line and does
    not end in white space: the last line kept is not empty, and the last
    character of the output is neither a line feed nor any other white
    space. *)
Theorem html_to_text_no_trailing_blank (parse : str -> soup) (html : str) :
  (forall l, last (text_lines parse html) = Some l -> l <> []) /\
  (forall c, last (html_to_text parse html) = Some c -> isspace c = false) /\
  last (html_to_text parse html) <> Some nl.
Proof.
  assert (Hclean : forall c, last (html_to_text parse html) = Some c ->
                             isspace c = false).
  { unfold html_to_text. intros c.
    destruct (text_lines parse html) as [|l ls _] eqn:Hlines using rev_ind; [done|].
    destruct (text_lines_last parse html l) as [Hne Hl].
    { rewrite Hlines. apply last_snoc. }
    rewrite last_join by done. apply Hl. }
  split; [|split; [done|]].
  - intros l Hl. by apply text_lines_last in Hl as [? _].
  - intros Hnl%Hclean. done.
Qed.

(** C8. A selected element whose extracted text is empty contributes no
    line: the loop leaves [lines] as it is, and the output is the one of
    the selection without that element. *)
Theorem empty_element_no_lines (parse : str -> soup) (html : str)
    (l1 l2 : list node) (t : node)
    (Hsel : find_all block_tags (parse html) = l1 ++ t :: l2)
    (Hempty : block_text t = []) :
  (forall lines, emit lines t = lines) /\
  text_lines parse html = pop_blank (fold_left emit (l1 ++ l2) []) /\
  html_to_text parse html = join [nl] (pop_blank (fold_left emit (l1 ++ l2) [])).
Proof.
  assert (Hlines : text_lines parse html = pop_blank (fold_left emit (l1 ++ l2) [])).
  { unfold text_lines. rewrite Hsel, !fold_left_app. simpl.
    by rewrite emit_skip. }
  split; [|split; [done|]].
  - intros lines. by apply emit_skip.
  - unfold html_to_text. by rewrite Hlines.
Qed.

(** An element with nothing but white space in its text nodes has an empty
    extracted text. *)
Lemma whitespace_only_block_text (t : node) :
  (forall s, NavigableString s ∈ descendants t ->
             Forall (fun c => isspace c = true) s) ->
  block_text t = [].
Proof.
  unfold block_text, get_text, stripped_strings. intros Hws.
  assert (Hnone : flat_map
            (fun d => match d with
                      | NavigableString s => if truthy (strip s) then [strip s] else []
                      | _ => []
                      end) (descendants t) = []); [|by rewrite Hnone].
  induction (descendants t) as [|d ds IH]; [done|]. simpl.
  rewrite IH by (intros s Hs; apply Hws; by right).
  destruct d as [s| |]; try done.
  unfold strip. rewrite drop_leading_all; [done|]. apply Hws. by left.
Qed.

Lemma join_middle (sep : str) (before mid after : list str) :
  mid <> [] ->
  exists pre post,
    join sep (before ++ mid ++ after) = pre ++ join sep mid ++ post /\
    (before = [] -> pre = []) /\ (after = [] -> post = []).
Proof.
  intros Hmid. destruct before as [|b before], after as [|a after].
  - exists [], []. by rewrite !app_nil_r.
  - exists [], (sep ++ join sep (a :: after)). simpl (_ ++ _).
    by rewrite join_app.
  - exists (join sep (b :: before) ++ sep), []. rewrite !app_nil_r.
    rewrite join_app by done. by rewrite <- !app_assoc.
  - exists (join sep (b :: before) ++ sep), (sep ++ join sep (a :: after)).
    rewrite join_app by (done || by destruct mid).
    rewrite (join_app _ mid) by done. by rewrite <- !app_assoc.
Qed.

(** C1, as the code has it.  Two consecutive headings with non-empty text
    are two blank lines apart: the blank line that follows every block and
    the blank line that precedes a heading.  In the output the two texts
    are separated by three line feeds. *)
Theorem consecutive_headings_two_blank_lines (parse : str -> soup) (html : str)
    (l1 l2 : list node) (t1 t2 : node)
    (Hsel : blocks (parse html) = l1 ++ t1 :: t2 :: l2)
    (H1 : is_heading t1 = true)
    (H2 : is_heading t2 = true) :
  (exists before after,
     text_lines parse html =
       before ++ [block_text t1; []; []; block_text t2] ++ after) /\
  (exists pre post,
     html_to_text parse html =
       pre ++ block_text t1 ++ [nl; nl; nl] ++ block_text t2 ++ post).
Proof.
  assert (Ht : block_text t1 <> [] /\ block_text t2 <> []).
  { assert (Hin : forall t, t ∈ blocks (parse html) -> block_text t <> []).
    { intros t [_ Ht]%list_elem_of_In%filter_In. by destruct (block_text t). }
    split; apply Hin; rewrite Hsel; set_solver. }
  destruct Ht as [Ht1 Ht2].
  assert (Hlines : exists before after,
     text_lines parse html =
       before ++ [block_text t1; []; []; block_text t2] ++ after).
  { unfold text_lines. rewrite fold_emit_blocks. fold (blocks (parse html)).
    rewrite Hsel, fold_left_app. cbn [fold_left].
    set (lines := fold_left emit l1 []).
    destruct (fold_emit_extends l2 (emit (emit lines t1) t2)) as [rest ->].
    rewrite (emit_block _ t2) by done. rewrite (emit_block _ t1) by done.
    rewrite H2. cbn [andb].
    set (b := lines ++ (if is_heading t1 && truthy lines then [[]] else [])).
    replace (truthy (lines ++ _ ++ [block_text t1; []])) with true
      by (by destruct lines, (_ && _)).
    exists b, (pop_blank ([] :: rest)).
    unfold pop_blank.
    transitivity (drop_trailing (fun l : str => negb (truthy l))
                    ((b ++ [block_text t1; []; []]) ++ block_text t2 :: [] :: rest)).
    { f_equal. unfold b. by rewrite <- !app_assoc. }
    rewrite drop_trailing_app_keep by (by destruct (block_text t2)).
    by rewrite <- app_assoc. }
  split; [done|].
  destruct Hlines as (before & after & Hlines).
  unfold html_to_text. rewrite Hlines.
  destruct (join_middle [nl] before [block_text t1; []; []; block_text t2] after)
    as (pre & post & -> & _); [done|].
  exists pre, post. cbn [join]. by rewrite <- !app_assoc.
Qed.

(** ** The order of [sorted] *)

Lemma str_leb_total (a b : str) : str_leb a b = true \/ str_leb b a = true.
Proof.
  revert b. induction a as [|x a IH]; intros [|y b]; simpl; auto.
  destruct (N.ltb_spec x y), (N.ltb_spec y x), (N.eqb_spec x y), (N.eqb_spec y x);
    simpl; auto; lia.
Qed.

Lemma str_leb_trans (a b c : str) :
  str_leb a b = true -> str_leb b c = true -> str_leb a c = true.
Proof.
  revert b c. induction a as [|x a IH]; intros [|y b] [|z c]; simpl; try done.
  destruct (N.ltb_spec x y), (N.ltb_spec y z), (N.ltb_spec x z),
    (N.eqb_spec x y), (N.eqb_spec y z), (N.eqb_spec x z);
    simpl; try done; try lia; subst; apply IH.
Qed.

#[local] Instance str_le_total : Total str_le.
Proof.
  intros a b. unfold str_le.
  destruct (str_leb_total a b) as [-> | ->]; [by left|by right].
Qed.

#[local] Instance str_le_trans : Transitive str_le.
Proof.
  intros a b c Hab%Is_true_true Hbc%Is_true_true.
  apply Is_true_true. by eapply str_leb_trans.
Qed.

Lemma sorted_spec (links : gset str) :
  NoDup (sorted links) /\ StronglySorted str_le (sorted links) /\
  (forall u, u ∈ sorted links <-> u ∈ links).
Proof.
  unfold sorted. split; [|split].
  - rewrite merge_sort_Permutation. apply NoDup_elements.
  - apply StronglySorted_merge_sort; apply _.
  - intros u. rewrite merge_sort_Permutation. apply elem_of_elements.
Qed.

(** ** The link collector *)

Lemma clicked_0 (n : nat) (st : state) : clicked n 0 st = st.
Proof. destruct st. unfold clicked. simpl. by rewrite app_nil_r. Qed.

Lemma clicked_S (n d : nat) (st : state) :
  clicked (S n) d (log (Click n) st) = clicked n (S d) st.
Proof. unfold clicked, log. simpl. by rewrite <- app_assoc. Qed.

Lemma stops_after_S (w : web) (n d : nat) :
  load_more (listing w n) = Visible ->
  stops_after w (S n) d -> stops_after w n (S d).
Proof.
  intros Hn [Hvis Hstop]. split.
  - intros [|j] Hj; [by rewrite Nat.add_0_r|].
    rewrite Nat.add_succ_r. apply Hvis. lia.
  - by rewrite Nat.add_succ_r.
Qed.

Lemma stops_after_inv (w : web) (n d : nat) :
  stops_after w n (S d) -> stops_after w (S n) d.
Proof.
  intros [Hvis Hstop]. split.
  - intros j Hj. specialize (Hvis (S j)). rewrite Nat.add_succ_r in Hvis.
    apply Hvis. lia.
  - by rewrite Nat.add_succ_r in Hstop.
Qed.

Lemma load_loop_stops (w : web) (fuel n d : nat) (links : gset str) (st : state) :
  stops_after w n d -> (d < fuel)%nat ->
  load_loop w fuel n links st = (Some (gather w n d links), clicked n d st).
Proof.
  revert n d links st.
  induction fuel as [|fuel IH]; intros n d links st Hstop Hfuel; [lia|].
  destruct d as [|d]; simpl.
  - destruct Hstop as [_ Hstop]. rewrite Nat.add_0_r in Hstop.
    rewrite clicked_0. by destruct (load_more (listing w n)).
  - pose proof Hstop as [Hvis _]. specialize (Hvis 0%nat).
    rewrite Nat.add_0_r in Hvis. rewrite Hvis by lia.
    rewrite IH with (d := d); [by rewrite clicked_S| |lia].
    by apply stops_after_inv.
Qed.

Lemma load_loop_inv (w : web) (fuel n : nat) (links links' : gset str)
    (st st' : state) :
  load_loop w fuel n links st = (Some links', st') ->
  exists d, (d < fuel)%nat /\ stops_after w n d /\
            links' = gather w n d links /\ st' = clicked n d st.
Proof.
  revert n links st.
  induction fuel as [|fuel IH]; intros n links st; simpl; [done|].
  destruct (load_more (listing w n)) eqn:Hctl.
  - intros [= <- <-]. exists 0%nat. rewrite clicked_0.
    split; [lia|]. split; [|done]. split; [lia|]. rewrite Nat.add_0_r. congruence.
  - intros [= <- <-]. exists 0%nat. rewrite clicked_0.
    split; [lia|]. split; [|done]. split; [lia|]. rewrite Nat.add_0_r. congruence.
  - intros (d & Hd & Hstop & -> & ->)%IH. exists (S d).
    split; [lia|]. split; [by apply stops_after_S|]. by rewrite clicked_S.
Qed.

Lemma stops_after_unique (w : web) (n d1 d2 : nat) :
  stops_after w n d1 -> stops_after w n d2 -> d1 = d2.
Proof.
  intros [Hv1 Hs1] [Hv2 Hs2].
  destruct (Nat.lt_trichotomy d1 d2) as [Hlt|[->|Hlt]]; [|done|].
  - by apply Hv2 in Hlt.
  - by apply Hv1 in Hlt.
Qed.

Lemma elem_of_add_anchors (hrefs : list (option str)) (links : gset str) (u : str) :
  u ∈ fold_left add_anchor hrefs links <->
  u ∈ links \/ exists h, Some h ∈ hrefs /\ h <> [] /\ u = full_url h.
Proof.
  revert links. induction hrefs as [|a hrefs IH]; intros links; simpl.
  - split; [by left|]. intros [?|(h & Hh & _)]; [done|]. by apply elem_of_nil in Hh.
  - rewrite IH. split.
    + intros [Hu|(h & Hh & ? & ?)].
      * destruct a as [[|c h]|]; simpl in Hu; [by left| |by left].
        apply elem_of_union in Hu as [->%elem_of_singleton|Hu]; [|by left].
        right. exists (c :: h). split; [by left|done].
      * right. exists h. split; [by right|done].
    + intros [Hu|(h & Hh & Hne & ->)].
      * left. destruct a as [[|c h]|]; simpl; [done| |done].
        apply elem_of_union. by right.
      * apply elem_of_cons in Hh as [<-|Hh].
        -- left. destruct h; [done|]. simpl. apply elem_of_union. left.
           by apply elem_of_singleton.
        -- right. by exists h.
Qed.

Lemma elem_of_gather (w : web) (n d : nat) (links : gset str) (u : str) :
  u ∈ gather w n d links <->
  u ∈ links \/ exists j, (j <= d)%nat /\ links_of (listing w (n + j)) u.
Proof.
  revert n links. induction d as [|d IH]; intros n links; simpl.
  - rewrite elem_of_add_anchors. split; intros [?|H]; auto; right.
    + exists 0%nat. by rewrite Nat.add_0_r.
    + destruct H as (j & Hj & H). assert (j = 0%nat) as -> by lia.
      by rewrite Nat.add_0_r in H.
  - rewrite IH, elem_of_add_anchors. split.
    + intros [[?|H]|(j & Hj & H)]; auto; right.
      * exists 0%nat. rewrite Nat.add_0_r. split; [lia|done].
      * exists (S j). rewrite Nat.add_succ_r. split; [lia|done].
    + intros [?|(j & Hj & H)]; auto. destruct j as [|j].
      * left. right. by rewrite Nat.add_0_r in H.
      * right. exists j. rewrite Nat.add_succ_r in H. split; [lia|done].
Qed.

Lemma full_url_absolute (h : str) : startswith (lit "http") (full_url h) = true.
Proof.
  unfold full_url. destruct (startswith (lit "http") h) eqn:Hh; [done|].
  by destruct h.
Qed.

Lemma collect_run (w : web) (fuel k : nat) (st : state) :
  stops_after w 0 k -> (k < fuel)%nat ->
  collect_all_nominee_links w fuel st =
    (Some (sorted (gather w 0 k ∅)), clicked 0 k (log (Goto NOMINEES_URL) st)).
Proof.
  intros Hstop Hfuel. unfold collect_all_nominee_links.
  by rewrite (load_loop_stops w fuel 0 k).
Qed.

Lemma collect_inv (w : web) (fuel : nat) (st st' : state) (links : list str) :
  collect_all_nominee_links w fuel st = (Some links, st') ->
  exists k, (k < fuel)%nat /\ stops_after w 0 k /\
            links = sorted (gather w 0 k ∅) /\
            st' = clicked 0 k (log (Goto NOMINEES_URL) st).
Proof.
  unfold collect_all_nominee_links.
  destruct (load_loop _ _ _ _ _) as [[ls|] st1] eqn:Hloop; [|done].
  intros [= <- <-]. apply load_loop_inv in Hloop as (d & ? & ? & -> & ->).
  by exists d.
Qed.

(** Whatever the fuel, the loop has clicked in an initial run of listing
    states, and the control was visible in each of them. *)
Lemma load_loop_clicks (w : web) (fuel n : nat) (links : gset str) (st : state) :
  exists d, (d <= fuel)%nat /\
            (load_loop w fuel n links st).2 = clicked n d st /\
            (forall j, (j < d)%nat -> load_more (listing w (n + j)) = Visible).
Proof.
  revert n links st. induction fuel as [|fuel IH]; intros n links st; simpl.
  - exists 0%nat. rewrite clicked_0. split; [lia|]. split; [done|]. lia.
  - destruct (load_more (listing w n)) eqn:Hctl; simpl.
    + exists 0%nat. rewrite clicked_0. split; [lia|]. split; [done|]. lia.
    + exists 0%nat. rewrite clicked_0. split; [lia|]. split; [done|]. lia.
    + destruct (IH (S n) (fold_left add_anchor (anchors (listing w n)) links)
                  (log (Click n) st)) as (d & Hd & -> & Hvis).
      exists (S d). rewrite clicked_S. split; [lia|]. split; [done|].
      intros [|j] Hj; [by rewrite Nat.add_0_r|].
      rewrite Nat.add_succ_r. apply Hvis. lia.
Qed.

(** C6. When pagination ends after [k] clicks, the collector returns (with
    any fuel above [k]) the list of the links of the listing states
    [0..k]: it has no duplicate, so a link present in several states occurs
    once; it is sorted lexicographically; every entry starts with [http];
    and an href that does not is prefixed with the base. *)
Theorem collected_links_sorted_unique (w : web) (k : nat) (st : state)
    (Hstop : stops_after w 0 k) :
  exists links st',
    (forall fuel, (k < fuel)%nat ->
                  collect_all_nominee_links w fuel st = (Some links, st')) /\
    NoDup links /\
    StronglySorted str_le links /\
    (forall u, u ∈ links <-> exists j, (j <= k)%nat /\ links_of (listing w j) u) /\
    (forall u, u ∈ links -> count_occ str_eq_dec links u = 1%nat) /\
    (forall u, u ∈ links -> startswith (lit "http") u = true) /\
    (forall h, startswith (lit "http") h = false -> full_url h = BASE_URL ++ h).
Proof.
  exists (sorted (gather w 0 k ∅)), (clicked 0 k (log (Goto NOMINEES_URL) st)).
  destruct (sorted_spec (gather w 0 k ∅)) as (Hnodup & Hsorted & Hin).
  assert (Hmem : forall u, u ∈ sorted (gather w 0 k ∅) <->
                 exists j, (j <= k)%nat /\ links_of (listing w j) u).
  { intros u. rewrite Hin, elem_of_gather. split; [|by right].
    intros [Hu|?]; [|done]. by apply elem_of_empty in Hu. }
  split; [intros fuel Hfuel; by apply collect_run|].
  split; [done|]. split; [done|]. split; [done|]. split; [|split].
  - intros u Hu%list_elem_of_In.
    apply NoDup_ListNoDup in Hnodup.
    by apply (proj1 (NoDup_count_occ' str_eq_dec _) Hnodup).
  - intros u (j & _ & h & _ & _ & ->)%Hmem. apply full_url_absolute.
  - intros h Hh. unfold full_url. by rewrite Hh.
Qed.

(** C9. The control is clicked only while it is visible.  Whatever the
    number of iterations, the clicks so far are those of an initial run of
    listing states in each of which the control was visible; and when the
    control is absent or hidden in state [k], the collector returns its
    list, having clicked in the states before [k] and not in [k]. *)
Theorem load_more_clicked_only_when_visible (w : web) (st : state) :
  (forall fuel, exists d,
     trace (collect_all_nominee_links w fuel st).2 =
       trace st ++ Goto NOMINEES_URL :: map Click (seq 0 d) /\
     (forall j, Click j ∈ map Click (seq 0 d) ->
                load_more (listing w j) = Visible)) /\
  (forall k fuel, stops_after w 0 k -> (k < fuel)%nat ->
     exists links st',
       collect_all_nominee_links w fuel st = (Some links, st') /\
       trace st' = trace st ++ Goto NOMINEES_URL :: map Click (seq 0 k) /\
       Click k ∉ map Click (seq 0 k)).
Proof.
  split.
  - intros fuel. unfold collect_all_nominee_links.
    destruct (load_loop_clicks w fuel 0 ∅ (log (Goto NOMINEES_URL) st))
      as (d & _ & Hst & Hvis).
    exists d. split.
    + destruct (load_loop _ _ _ _ _) as [[ls|] st1]; simpl in *; subst st1;
        simpl; by rewrite <- app_assoc.
    + intros j (i & [= ->] & Hi%elem_of_seq)%list_elem_of_fmap.
      apply (Hvis i). lia.
  - intros k fuel Hstop Hfuel. eexists _, _.
    split; [by apply collect_run|]. split.
    + simpl. by rewrite <- app_assoc.
    + intros (i & [= <-] & Hi%elem_of_seq)%list_elem_of_fmap. lia.
Qed.

(** ** The profile scraper and the run *)

Section RunProperties.
Variable parse : str -> soup.
Variable rejects : str -> option exn.
Variable w : web.

Local Abbreviation scraped := (scraped parse rejects w).
Local Abbreviation save := (save parse rejects w).
Local Abbreviation visit := (visit parse rejects w).
Local Abbreviation visit_all := (visit_all parse rejects w).
Local Abbreviation settled := (settled parse rejects w).

Lemma scrape_body_run (url : str) (st : state) :
  (scrape_body parse rejects w url st).2 = log (Goto url) st /\
  match (scrape_body parse rejects w url st).1 with
  | Ok text => text = scraped url
  | Raise _ => scraped url = None
  end.
Proof.
  unfold scrape_body, call_html_to_text, scraped, bind, perform, ret.
  destruct (goto_outcome _); [|done].
  destruct (settle_outcome _); [|done].
  destruct (body1 _) as [[el|]|]; [|done..].
  destruct (inner_html el) as [html|]; [|done].
  by destruct (rejects html).
Qed.

Lemma scrape_nominee_run (url : str) (st : state) :
  scrape_nominee parse rejects w url st = (Ok (scraped url), log (Goto url) st).
Proof.
  unfold scrape_nominee, try_except, ret.
  destruct (scrape_body_run url st) as [Hst Hres].
  destruct (scrape_body parse rejects w url st) as [[text|e] st']; simpl in *; congruence.
Qed.

Lemma scrape_one_run (url : str) (st : state) :
  scrape_one parse rejects w url st = (Ok tt, visit url st).
Proof.
  unfold scrape_one, visit, bind, path_exists.
  destruct (bool_decide _); [done|].
  rewrite scrape_nominee_run. unfold save.
  by destruct (scraped url) as [[|c t]|].
Qed.

Lemma scrape_all_run (links : list str) (st : state) :
  scrape_all parse rejects w links st = (Ok tt, visit_all st links).
Proof.
  unfold scrape_all, visit_all. revert st.
  induction links as [|u links IH]; intros st; simpl; [done|].
  unfold bind. by rewrite scrape_one_run, IH.
Qed.

Lemma visit_saved (url : str) (st : state) :
  is_Some (files st !! out_path url) -> visit url st = st.
Proof.
  intros Hsome. unfold visit. by rewrite bool_decide_eq_true_2.
Qed.

Lemma visit_new (url : str) (st : state) :
  files st !! out_path url = None ->
  visit url st = log Sleep (save url (log (Goto url) st)).
Proof.
  intros Hnone. unfold visit. rewrite bool_decide_eq_false_2; [done|].
  rewrite Hnone. by intros [? ?].
Qed.

Lemma visit_no_text (url : str) (st : state) :
  files st !! out_path url = None -> has_text (scraped url) = false ->
  visit url st = log Sleep (log (Goto url) st).
Proof.
  intros Hnone Htext. rewrite visit_new by done. unfold save.
  by destruct (scraped url) as [[|c t]|].
Qed.

(** A step keeps every file there is, and writes only to a path that had
    no file. *)
Lemma visit_keeps (url : str) (st : state) (path text : str) :
  files st !! path = Some text -> files (visit url st) !! path = Some text.
Proof.
  intros Hfile. unfold visit. case_bool_decide as Hsaved; [done|].
  simpl. unfold save. destruct (scraped url) as [[|c t]|]; simpl; try done.
  rewrite lookup_insert_ne; [done|]. intros <-. apply Hsaved. by eauto.
Qed.

Lemma visit_events (url : str) (st : state) :
  exists evs, extends st (visit url st) evs /\
    (forall path text, WriteText path text ∈ evs ->
       path = out_path url /\ files st !! path = None) /\
    (files st !! out_path url = None -> Goto url ∈ evs) /\
    (List.filter is_write evs = [] -> files (visit url st) = files st).
Proof.
  destruct (files st !! out_path url) as [old|] eqn:Hfile.
  - rewrite visit_saved by eauto. exists []. unfold extends.
    rewrite app_nil_r. split; [done|]. split; [|done].
    intros ?? []%elem_of_nil.
  - rewrite visit_new by done. unfold save, extends.
    destruct (scraped url) as [[|c t]|]; simpl.
    + exists [Goto url; Sleep]. rewrite <- app_assoc.
      split; [done|]. split; [|split; [by left|done]].
      intros ?? [[=]|[[=]|[]%elem_of_nil]%elem_of_cons]%elem_of_cons.
    + exists [Goto url; WriteText (out_path url) (c :: t); Sleep].
      rewrite <- !app_assoc. split; [done|]. split; [|split; [by left|done]].
      intros ?? [[=]|[[= -> _]|[[=]|[]%elem_of_nil]%elem_of_cons]%elem_of_cons]%elem_of_cons.
      done.
    + exists [Goto url; Sleep]. rewrite <- app_assoc.
      split; [done|]. split; [|split; [by left|done]].
      intros ?? [[=]|[[=]|[]%elem_of_nil]%elem_of_cons]%elem_of_cons.
Qed.


Lemma visit_all_keeps (links : list str) (st : state) (path text : str) :
  files st !! path = Some text -> files (visit_all st links) !! path = Some text.
Proof.
  revert st. induction links as [|u links IH]; intros st Hfile; simpl; [done|].
  by apply IH, visit_keeps.
Qed.

Lemma visit_all_events (links : list str) (st : state) :
  exists evs, extends st (visit_all st links) evs /\
    (forall path text, WriteText path text ∈ evs -> files st !! path = None) /\
    (List.filter is_write evs = [] -> files (visit_all st links) = files st).
Proof.
  revert st. induction links as [|u links IH]; intros st; simpl.
  - exists []. unfold extends. rewrite app_nil_r. split; [done|].
    split; [|done]. intros ?? []%elem_of_nil.
  - destruct (visit_events u st) as (e1 & He1 & Hw1 & _ & Hf1).
    destruct (IH (visit u st)) as (e2 & He2 & Hw2 & Hf2).
    exists (e1 ++ e2). unfold extends in *. split; [|split].
    + by rewrite He2, He1, <- app_assoc.
    + intros path text [Hin|Hin]%elem_of_app.
      * by apply Hw1 in Hin as [_ ?].
      * apply Hw2 in Hin. destruct (files st !! path) eqn:Hp; [|done].
        by rewrite (visit_keeps u st path l) in Hin.
    + rewrite List.filter_app. intros [H1 H2]%app_eq_nil.
      by rewrite Hf2, Hf1.
Qed.

Lemma visit_settles (url : str) (st : state) :
  is_Some (files (visit url st) !! out_path url) \/ has_text (scraped url) = false.
Proof.
  destruct (files st !! out_path url) as [old|] eqn:Hfile.
  - left. rewrite visit_saved; by eauto.
  - rewrite visit_new by done. unfold save.
    destruct (scraped url) as [[|c t]|]; simpl; [by right| |by right].
    left. rewrite lookup_insert_eq. by eauto.
Qed.

Lemma visit_all_settles (links : list str) (st : state) :
  settled (visit_all st links) links.
Proof.
  revert st. induction links as [|u links IH]; intros st v Hv; simpl.
  - by apply elem_of_nil in Hv.
  - apply elem_of_cons in Hv as [->|Hv]; [|by apply IH].
    destruct (visit_settles u st) as [[text Hfile]|Hno]; [|by right].
    left. exists text. by apply visit_all_keeps.
Qed.

Lemma settled_files (st st' : state) (links : list str) :
  files st = files st' -> settled st links -> settled st' links.
Proof. intros Heq Hs u Hu. rewrite <- Heq. by apply Hs. Qed.

Lemma settled_quiet (links : list str) (st : state) :
  settled st links ->
  files (visit_all st links) = files st /\
  exists evs, extends st (visit_all st links) evs /\ List.filter is_write evs = [].
Proof.
  revert st. induction links as [|u links IH]; intros st Hs; simpl.
  - split; [done|]. exists []. unfold extends. by rewrite app_nil_r.
  - assert (Hu : files (visit u st) = files st /\
                 exists e1, extends st (visit u st) e1 /\ List.filter is_write e1 = []).
    { destruct (files st !! out_path u) as [old|] eqn:Hfile.
      - rewrite visit_saved by eauto. split; [done|].
        exists []. unfold extends. by rewrite app_nil_r.
      - destruct (Hs u) as [[? ?]|Hno]; [by left|congruence|].
        rewrite visit_no_text by done. split; [done|].
        exists [Goto u; Sleep]. unfold extends. simpl.
        by rewrite <- app_assoc. }
    destruct Hu as (Hf1 & e1 & He1 & Hq1).
    destruct (IH (visit u st)) as (Hf2 & e2 & He2 & Hq2).
    { apply (settled_files st); [done|]. intros v Hv. apply Hs. by right. }
    split; [congruence|]. exists (e1 ++ e2). unfold extends in *.
    rewrite He2, He1, <- app_assoc. split; [done|].
    by rewrite List.filter_app, Hq1, Hq2.
Qed.

Lemma visit_absent (u : str) (st : state) (path : str) :
  files st !! path = None ->
  (out_path u = path -> has_text (scraped u) = false) ->
  files (visit u st) !! path = None.
Proof.
  intros Hnone Hno. unfold visit. case_bool_decide; [done|].
  simpl. unfold save. destruct (scraped u) as [[|c t]|]; simpl in *; try done.
  rewrite lookup_insert_ne; [done|]. intros Heq. by apply Hno in Heq.
Qed.

Lemma visit_all_absent (links : list str) (st : state) (path : str) :
  files st !! path = None ->
  (forall u, u ∈ links -> out_path u = path -> has_text (scraped u) = false) ->
  files (visit_all st links) !! path = None.
Proof.
  revert st. induction links as [|u links IH]; intros st Hnone Hno; simpl; [done|].
  apply IH.
  - apply visit_absent; [done|]. apply Hno. by left.
  - intros v Hv. apply Hno. by right.
Qed.

Lemma visit_all_attempts (links : list str) (st : state) (url : str) :
  url ∈ links -> files st !! out_path url = None ->
  (forall u, u ∈ links -> out_path u = out_path url -> has_text (scraped u) = false) ->
  exists evs, extends st (visit_all st links) evs /\ Goto url ∈ evs.
Proof.
  revert st. induction links as [|u links IH]; intros st Hin Hnone Hno; simpl.
  - by apply elem_of_nil in Hin.
  - destruct (visit_events u st) as (e1 & He1 & _ & Hgo & _).
    destruct (visit_all_events links (visit u st)) as (e2 & He2 & _).
    destruct (decide (u = url)) as [->|Hne].
    + exists (e1 ++ e2). unfold extends in *.
      rewrite He2, He1, <- app_assoc. split; [done|].
      apply elem_of_app. left. by apply Hgo.
    + apply elem_of_cons in Hin as [?|Hin]; [done|].
      destruct (IH (visit u st)) as (e3 & He3 & Hin3); [done| | |].
      * apply visit_absent; [done|]. apply Hno. by left.
      * intros v Hv. apply Hno. by right.
      * exists (e1 ++ e3). unfold extends in *.
        rewrite He3, He1, <- app_assoc. split; [done|].
        apply elem_of_app. by right.
Qed.

(** The run after the collector. *)
Lemma main_run (fuel : nat) (st : state) :
  main parse rejects w fuel st =
    match collect_all_nominee_links w fuel st with
    | (Some links, st') => (Some (Ok tt), visit_all st' links)
    | (None, st') => (None, st')
    end.
Proof.
  unfold main. destruct (collect_all_nominee_links w fuel st) as [[links|] st']; [|done].
  by rewrite scrape_all_run.
Qed.

Lemma collect_quiet (fuel : nat) (st : state) :
  files (collect_all_nominee_links w fuel st).2 = files st /\
  exists evs, extends st (collect_all_nominee_links w fuel st).2 evs /\
              List.filter is_write evs = [].
Proof.
  unfold collect_all_nominee_links.
  destruct (load_loop_clicks w fuel 0 ∅ (log (Goto NOMINEES_URL) st))
    as (d & _ & Hst & _).
  assert (Hq : forall m n, List.filter is_write (map Click (seq n m)) = []).
  { clear. induction m as [|m IH]; intros n; simpl; [done|]. apply IH. }
  destruct (load_loop _ _ _ _ _) as [[ls|] st1]; simpl in *; subst st1;
    (split; [done|]); exists (Goto NOMINEES_URL :: map Click (seq 0 d));
    unfold extends; simpl; rewrite <- app_assoc; (split; [done|apply (Hq d)]).
Qed.
End RunProperties.

Lemma no_write_events (evs : list event) :
  List.filter is_write evs = [] -> forall path text, WriteText path text ∉ evs.
Proof.
  intros Hq path text Hin.
  assert (Hw : In (WriteText path text) (List.filter is_write evs)).
  { apply filter_In. split; [by apply list_elem_of_In|done]. }
  by rewrite Hq in Hw.
Qed.

(** Case analysis on the outcomes a goal matches on. *)
Ltac case_outcomes :=
  repeat match goal with
         | |- context [match ?r with Ok _ => _ | Raise _ => _ end] =>
             destruct r; try done
         end.

(** C3. The profile scraper never raises: whatever the page operations
    and the parser do, it returns to its caller, and it returns [None]
    when the navigation, the settle wait, the lookup of the container, the
    extraction of its markup or the parser raises, and when the container
    is missing.  When nothing fails it returns the normalized text of the
    container. *)
Theorem scrape_nominee_never_raises (parse : str -> soup) (rejects : str -> option exn)
    (w : web)
    (url : str) (st : state) :
  exists text,
    scrape_nominee parse rejects w url st = (Ok text, log (Goto url) st) /\
    (forall e st', scrape_body parse rejects w url st = (Raise e, st') -> text = None) /\
    (forall e, goto_outcome (profile w url) = Raise e -> text = None) /\
    (forall e, settle_outcome (profile w url) = Raise e -> text = None) /\
    (forall e, body1 (profile w url) = Raise e -> text = None) /\
    (forall e el, body1 (profile w url) = Ok (Some el) ->
                  inner_html el = Raise e -> text = None) /\
    (forall e el html, body1 (profile w url) = Ok (Some el) ->
                       inner_html el = Ok html -> rejects html = Some e ->
                       text = None) /\
    (body1 (profile w url) = Ok None -> text = None) /\
    (forall el html,
       goto_outcome (profile w url) = Ok tt ->
       settle_outcome (profile w url) = Ok tt ->
       body1 (profile w url) = Ok (Some el) -> inner_html el = Ok html ->
       rejects html = None ->
       text = Some (html_to_text parse html)).
Proof.
  exists (scraped parse rejects w url). split; [apply scrape_nominee_run|].
  split; [|unfold scraped; split; [|split; [|split; [|split; [|split; [|split]]]]]].
  - intros e st' Hbody. destruct (scrape_body_run parse rejects w url st) as [_ Hres].
    by rewrite Hbody in Hres.
  - by intros e ->.
  - intros e ->. by case_outcomes.
  - intros e ->. by case_outcomes.
  - intros e el -> ->. by case_outcomes.
  - intros e el html -> -> ->. by case_outcomes.
  - intros ->. by case_outcomes.
  - by intros el html -> -> -> -> ->.
Qed.

(** C4. A URL whose output file exists is skipped: the step changes
    neither the files nor the trace, so the page does not navigate and
    nothing is written.  Hence a file that exists keeps its content through
    the rest of the loop and through any later run, and no write to its
    path occurs. *)
Theorem saved_output_is_skipped (parse : str -> soup) (rejects : str -> option exn)
    (w : web) :
  (forall url st, is_Some (files st !! out_path url) ->
                  scrape_one parse rejects w url st = (Ok tt, st)) /\
  (forall links st path text, files st !! path = Some text ->
     exists st' evs,
       scrape_all parse rejects w links st = (Ok tt, st') /\ extends st st' evs /\
       files st' !! path = Some text /\
       forall text', WriteText path text' ∉ evs) /\
  (forall fuel st path text, files st !! path = Some text ->
     files (main parse rejects w fuel st).2 !! path = Some text /\
     exists evs, extends st (main parse rejects w fuel st).2 evs /\
                 forall text', WriteText path text' ∉ evs).
Proof.
  split; [|split].
  - intros url st Hsaved. by rewrite scrape_one_run, visit_saved.
  - intros links st path text Hfile.
    destruct (visit_all_events parse rejects w links st) as (evs & Hext & Hw & _).
    exists (visit_all parse rejects w st links), evs.
    split; [apply scrape_all_run|]. split; [done|].
    split; [by apply visit_all_keeps|].
    intros text' Hin%Hw. congruence.
  - intros fuel st path text Hfile. rewrite main_run.
    destruct (collect_quiet w fuel st) as (Hf & e0 & He0 & Hq0).
    destruct (collect_all_nominee_links w fuel st) as [[links|] st1]; simpl in *.
    + destruct (visit_all_events parse rejects w links st1) as (evs & Hext & Hw & _).
      split; [apply visit_all_keeps; congruence|].
      exists (e0 ++ evs). unfold extends in *. split.
      * by rewrite Hext, He0, <- app_assoc.
      * intros text' [Hin|Hin%Hw]%elem_of_app; [by eapply no_write_events|].
        congruence.
    + split; [congruence|]. exists e0. split; [done|].
      intros text'. by apply no_write_events.
Qed.

(** C5. Two runs on the same web: after the second run the output files
    are those after the first, with the same contents, and the second run
    writes nothing.  A run on a listing whose pagination ends returns. *)
Theorem second_run_writes_nothing (parse : str -> soup) (rejects : str -> option exn)
    (w : web) :
  (forall fuel1 fuel2 st0 r1 st1 r2 st2,
     main parse rejects w fuel1 st0 = (Some r1, st1) ->
     main parse rejects w fuel2 st1 = (Some r2, st2) ->
     r1 = Ok tt /\ r2 = Ok tt /\ files st2 = files st1 /\
     exists evs, extends st1 st2 evs /\ List.filter is_write evs = []) /\
  (forall k fuel st, stops_after w 0 k -> (k < fuel)%nat ->
     exists st', main parse rejects w fuel st = (Some (Ok tt), st')).
Proof.
  split.
  - intros fuel1 fuel2 st0 r1 st1 r2 st2. rewrite !main_run.
    destruct (collect_all_nominee_links w fuel1 st0) as [[links1|] st0'] eqn:Hc1;
      [|done].
    intros [= <- <-].
    pose proof (collect_quiet w fuel2 (visit_all parse rejects w st0' links1))
      as (Hf & e0 & He0 & Hq0).
    destruct (collect_all_nominee_links w fuel2 _) as [[links2|] st1'] eqn:Hc2;
      [|done].
    intros [= <- <-]. simpl in *.
    apply collect_inv in Hc1 as (k1 & _ & Hk1 & -> & _).
    apply collect_inv in Hc2 as (k2 & _ & Hk2 & -> & _).
    rewrite (stops_after_unique w 0 k2 k1) by done.
    destruct (settled_quiet parse rejects w (sorted (gather w 0 k1 ∅)) st1')
      as (Hf2 & evs & Hext & Hq).
    { eapply settled_files; [symmetry; exact Hf|]. apply visit_all_settles. }
    split; [done|]. split; [done|]. split; [congruence|].
    exists (e0 ++ evs). unfold extends in *.
    rewrite Hext, He0, <- app_assoc. split; [done|].
    by rewrite List.filter_app, Hq0, Hq.
  - intros k fuel st Hstop Hfuel. rewrite main_run.
    rewrite (collect_run w fuel k) by done. by eauto.
Qed.

(** C10. A profile whose container holds markup that the parser accepts
    and the normalizer turns into the empty text is not saved:
    the scraper returns the empty string, the loop body navigates, writes
    nothing and sleeps, exactly as it does on an absent result; the file
    stays absent, and in every later pass over a worklist in which the URL
    is the only one with its output path the URL is visited again. *)
Theorem empty_text_is_not_saved (parse : str -> soup) (rejects : str -> option exn)
    (w : web)
    (url : str) (st : state) (el : element) (html : str)
    (Hgoto : goto_outcome (profile w url) = Ok tt)
    (Hsettle : settle_outcome (profile w url) = Ok tt)
    (Hel : body1 (profile w url) = Ok (Some el))
    (Hhtml : inner_html el = Ok html)
    (Hparsed : rejects html = None)
    (Hempty : html_to_text parse html = [])
    (Hnew : files st !! out_path url = None) :
  scrape_nominee parse rejects w url st = (Ok (Some []), log (Goto url) st) /\
  scrape_one parse rejects w url st = (Ok tt, log Sleep (log (Goto url) st)) /\
  (forall w', scrape_nominee parse rejects w' url st = (Ok None, log (Goto url) st) ->
              scrape_one parse rejects w' url st = scrape_one parse rejects w url st) /\
  (forall links, url ∈ links ->
     (forall u, u ∈ links -> out_path u = out_path url -> u = url) ->
     forall n,
       files (passes parse rejects w links n st) !! out_path url = None /\
       exists evs,
         extends (passes parse rejects w links n st) (passes parse rejects w links (S n) st) evs /\
         Goto url ∈ evs).
Proof.
  assert (Hscraped : scraped parse rejects w url = Some []).
  { unfold scraped. by rewrite Hgoto, Hsettle, Hel, Hhtml, Hparsed, Hempty. }
  split; [by rewrite scrape_nominee_run, Hscraped|].
  assert (Hone : scrape_one parse rejects w url st = (Ok tt, log Sleep (log (Goto url) st))).
  { rewrite scrape_one_run, visit_no_text; [done..|]. by rewrite Hscraped. }
  split; [done|]. split.
  - intros w' Hnone. rewrite Hone, scrape_one_run.
    rewrite scrape_nominee_run in Hnone. injection Hnone as Hnone.
    rewrite visit_no_text; [done..|]. by rewrite Hnone.
  - intros links Hin Honly.
    assert (Hno : forall u, u ∈ links -> out_path u = out_path url ->
                            has_text (scraped parse rejects w u) = false).
    { intros u Hu Hpath. rewrite (Honly u) by done. by rewrite Hscraped. }
    assert (Habsent : forall n,
              files (passes parse rejects w links n st) !! out_path url = None).
    { induction n as [|n IH]; [done|]. unfold passes in *. simpl.
      rewrite scrape_all_run. simpl. by apply visit_all_absent. }
    intros n. split; [done|].
    destruct (visit_all_attempts parse rejects w links (passes parse rejects w links n st) url)
      as (evs & Hext & Hgo); [done..|].
    exists evs. split; [|done].
    unfold passes in *. simpl. by rewrite scrape_all_run.
Qed.

(** ** The properties on the example web *)

Example slug_root : slugify_name (lit "https://example.org/") = lit "example.org".
Proof. reflexivity. Qed.

Lemma slugify_name_spec_witness : slugify_name katie = lit "katie-lane".
Proof.
  assert (Hnl : nl ∉ katie) by (apply (bool_decide_unpack _); vm_compute; exact I).
  apply (proj1 (slugify_name_spec katie Hnl)).
  split; [discriminate|]. split.
  - apply (bool_decide_unpack _). vm_compute. exact I.
  - exists (lit "https://afj.org"). right. reflexivity.
Defined.

(** C2 as the specification states it fails.  [https://example.org/] has
    no non-empty path segment, and its slug is the host, not the constant;
    the last path segment of a nominee URL with a query is [katie-lane],
    and its slug is the query. *)
Lemma slug_path_segment_counterexample :
  spec_path_segments (lit "https://example.org/") = [] /\
  slugify_name (lit "https://example.org/") = lit "example.org" /\
  slugify_name (lit "https://example.org/") <> lit "unknown" /\
  last (spec_path_segments (lit "https://afj.org/nominee/katie-lane/?court=8"))
    = Some (lit "katie-lane") /\
  slugify_name (lit "https://afj.org/nominee/katie-lane/?court=8") = lit "?court=8" /\
  slugify_name (lit "https://afj.org/nominee/katie-lane/?court=8") <> lit "katie-lane".
Proof. repeat split; vm_compute; (reflexivity || discriminate). Qed.

(** C1 as the specification states it fails: the two headings of
    [<h1>heading1</h1><h2>heading2</h2>] come out three line feeds apart,
    not two. *)
Lemma heading_spacing_counterexample :
  html_to_text demo_parse headings_markup
    = lit "heading1" ++ [nl; nl; nl] ++ lit "heading2" /\
  html_to_text demo_parse headings_markup
    <> lit "heading1" ++ [nl; nl] ++ lit "heading2".
Proof. split; vm_compute; [reflexivity|discriminate]. Qed.

Lemma consecutive_headings_witness :
  exists pre post,
    html_to_text demo_parse katie_markup =
      pre ++ lit "Biography" ++ [nl; nl; nl] ++ lit "Early life" ++ post.
Proof.
  apply (consecutive_headings_two_blank_lines demo_parse katie_markup
           [] [Tag (lit "p") [NavigableString (lit "Born in ");
                              Tag (lit "b") [NavigableString (lit "Montana")];
                              NavigableString (lit ".")]]
           (Tag (lit "h2") [NavigableString (lit "Biography")])
           (Tag (lit "h3") [NavigableString (lit "Early life")]));
    vm_compute; reflexivity.
Defined.

Lemma no_trailing_blank_witness :
  last (html_to_text demo_parse katie_markup) <> Some nl.
Proof. apply (html_to_text_no_trailing_blank demo_parse katie_markup). Defined.

Lemma empty_element_witness :
  html_to_text demo_parse katie_markup =
    join [nl] (pop_blank (fold_left emit (take 3 katie_soup ++ []) [])).
Proof.
  apply (empty_element_no_lines demo_parse katie_markup
           (take 3 katie_soup) [] blank_paragraph);
    vm_compute; reflexivity.
Defined.

Lemma demo_stops : stops_after demo_web 0 1.
Proof.
  split; [|discriminate].
  intros j Hj. assert (j = 0%nat) as -> by lia. reflexivity.
Defined.

Lemma collected_links_witness :
  exists links st',
    collect_all_nominee_links demo_web 2 fresh = (Some links, st') /\
    NoDup links /\ StronglySorted str_le links.
Proof.
  destruct (collected_links_sorted_unique demo_web 1 fresh demo_stops)
    as (links & st' & Hrun & Hnodup & Hsorted & _).
  exists links, st'. split; [apply Hrun; lia|]. split; [exact Hnodup|exact Hsorted].
Defined.

Lemma load_more_witness :
  exists links st',
    collect_all_nominee_links demo_web 2 fresh = (Some links, st') /\
    trace st' = [Goto NOMINEES_URL; Click 0].
Proof.
  destruct (proj2 (load_more_clicked_only_when_visible demo_web fresh)
              1%nat 2%nat demo_stops) as (links & st' & Hrun & Htrace & _); [lia|].
  exists links, st'. split; [exact Hrun|exact Htrace].
Defined.

Lemma scrape_nominee_witness :
  scrape_nominee demo_parse demo_rejects demo_web john fresh
    = (Ok None, log (Goto john) fresh) /\
  scrape_nominee demo_parse demo_rejects broken_web katie fresh
    = (Ok None, log (Goto katie) fresh).
Proof.
  split.
  - destruct (scrape_nominee_never_raises demo_parse demo_rejects demo_web john fresh)
      as (text & Hrun & _ & Hgoto & _).
    rewrite Hrun. f_equal. f_equal.
    apply (Hgoto (TimeoutError (lit "Timeout 30000ms exceeded."))).
    vm_compute. reflexivity.
  - destruct (scrape_nominee_never_raises demo_parse demo_rejects broken_web katie fresh)
      as (text & Hrun & _ & _ & _ & _ & _ & Hparser & _).
    rewrite Hrun. f_equal. f_equal.
    apply (Hparser (ParserRejectedMarkup (lit "expected name token"))
                   {| inner_html := Ok broken_markup |} broken_markup);
      vm_compute; reflexivity.
Defined.

Lemma saved_output_witness :
  let st := {| files := {[ out_path katie := lit "saved earlier" ]}; trace := [] |} in
  scrape_one demo_parse demo_rejects demo_web katie st = (Ok tt, st).
Proof.
  intros st. apply (proj1 (saved_output_is_skipped demo_parse demo_rejects demo_web)).
  exists (lit "saved earlier"). vm_compute. reflexivity.
Defined.

Lemma second_run_witness :
  let st1 := (main demo_parse demo_rejects demo_web 3 fresh).2 in
  let st2 := (main demo_parse demo_rejects demo_web 3 st1).2 in
  files st2 = files st1.
Proof.
  intros st1 st2.
  apply (proj1 (second_run_writes_nothing demo_parse demo_rejects demo_web)
           3%nat 3%nat fresh (Ok tt) st1 (Ok tt) st2);
    vm_compute; reflexivity.
Defined.

Lemma empty_text_witness :
  scrape_one demo_parse demo_rejects demo_web jane fresh
    = (Ok tt, log Sleep (log (Goto jane) fresh)).
Proof.
  refine (proj1 (proj2 (empty_text_is_not_saved demo_parse demo_rejects demo_web jane fresh
                          {| inner_html := Ok blank_markup |} blank_markup
                          _ _ _ _ _ _ _)));
    vm_compute; reflexivity.
Defined.

(** * Further properties *)

(** ** The slug as a file name *)

Lemma split_pieces (sep : N) (s p : str) : p ∈ split sep s -> sep ∉ p.
Proof.
  revert p. induction s as [|c s IH]; intros p; simpl.
  - intros ->%list_elem_of_singleton. apply not_elem_of_nil.
  - destruct (N.eqb_spec c sep) as [->|Hc].
    + intros [->|Hp]%elem_of_cons; [apply not_elem_of_nil|by apply IH].
    + pose proof (split_nonempty sep s) as Hne.
      destruct (split sep s) as [|q qs]; [done|].
      intros [->|Hp]%elem_of_cons.
      * apply not_elem_of_cons. split; [congruence|]. apply IH. by left.
      * apply IH. by right.
Qed.

Lemma slug_of_last_segment (url seg : str) :
  nl ∉ url -> last_segment url seg -> slugify_name url = seg.
Proof.
  intros Hnl Hseg. unfold slugify_name.
  destruct (re_search url) as [g|] eqn:Hg.
  - apply (last_segment_unique url); [|done].
    by apply nominee_shape_last_segment, re_search_shape.
  - by rewrite (fallback_last_segment url seg).
Qed.

Lemma slug_of_slashes (url : str) :
  Forall (eq slash) url -> slugify_name url = lit "unknown".
Proof.
  intros Hall. unfold slugify_name. rewrite only_slashes_no_match by done.
  unfold rstrip_slash, drop_trailing. rewrite drop_leading_all; [done|].
  apply Forall_forall. intros x Hx%list_elem_of_In%in_rev%list_elem_of_In.
  eapply Forall_forall in Hall; [|done]. subst. apply N.eqb_refl.
Qed.

(** X1. Whatever the URL, the slug is not empty and holds no slash. *)
Theorem slug_is_file_name (url : str) :
  slugify_name url <> [] /\ slash ∉ slugify_name url.
Proof.
  unfold slugify_name. destruct (re_search url) as [g|] eqn:Hg.
  - by apply re_search_inv in Hg as (? & ? & _).
  - destruct (last _) as [p|] eqn:Hlast.
    + apply last_Some_elem_of, list_elem_of_In, filter_In in Hlast as [Hin Hp].
      split; [by destruct p|]. eapply split_pieces. by apply list_elem_of_In.
    + split; [done|]. apply (bool_decide_unpack _). by vm_compute.
Qed.

(** X2. Two URLs have the same output path exactly when they have the
    same slug. *)
Theorem out_path_same_slug (u1 u2 : str) :
  out_path u1 = out_path u2 <-> slugify_name u1 = slugify_name u2.
Proof.
  unfold out_path. split; [|by intros ->].
  intros H. apply app_inv_head in H. apply app_inv_head in H.
  by apply app_inv_tail in H.
Qed.

(** X3. Slashes added at the end of a URL do not change its slug. *)
Theorem slug_ignores_trailing_slashes (url : str) (n : nat)
    (Hurl : nl ∉ url) :
  slugify_name (url ++ replicate n slash) = slugify_name url.
Proof.
  assert (Hrep : Forall (eq slash) (replicate n slash)).
  { apply Forall_forall. by intros x [-> _]%elem_of_replicate. }
  destruct (decide (Forall (eq slash) url)) as [Hall|Hnot].
  - rewrite !slug_of_slashes; [done..|]. by apply Forall_app.
  - destruct (last_segment_exists url Hnot) as (seg & Hne & Hno & a & b & -> & Ha & Hb).
    rewrite (slug_of_last_segment _ seg), (slug_of_last_segment _ seg); try done.
    + split; [done|]. split; [done|]. by exists a, b.
    + intros [?|[Heq _]%elem_of_replicate]%elem_of_app; [done|discriminate].
    + split; [done|]. split; [done|]. exists a, (b ++ replicate n slash).
      rewrite <- !app_assoc. split; [done|]. split; [done|]. by apply Forall_app.
Qed.

(** ** The layout of the normalized text *)

Lemma blocks_have_text (s : soup) :
  Forall (fun t => block_text t <> []) (blocks s).
Proof.
  apply Forall_forall. intros t [_ Ht]%list_elem_of_In%filter_In.
  by destruct (block_text t).
Qed.

Lemma fold_emit_from (bs : list node) (acc : list str) :
  Forall (fun t => block_text t <> []) bs -> acc <> [] ->
  fold_left emit bs acc =
    acc ++ flat_map (fun u => (if is_heading u then [[]] else [])
                              ++ [block_text u; []]) bs.
Proof.
  intros Hbs. revert acc.
  induction Hbs as [|t bs Ht _ IH]; intros acc Hacc; simpl.
  - by rewrite app_nil_r.
  - rewrite IH.
    + rewrite emit_block by done. destruct acc; [done|]. cbn [truthy].
      rewrite andb_true_r. by rewrite <- !app_assoc.
    + rewrite emit_block by done. by destruct acc.
Qed.

Lemma blank_moves_right (ts : list node) :
  [] :: flat_map (fun u => (if is_heading u then [[]] else [])
                           ++ [block_text u; []]) ts
  = flat_map (fun u => gap u ++ [block_text u]) ts ++ [[]].
Proof.
  induction ts as [|u ts IH]; simpl; [done|].
  rewrite <- !app_assoc. simpl. rewrite <- IH.
  unfold gap. by destruct (is_heading u).
Qed.

Lemma layout_snoc (bs : list node) (u : node) :
  exists ls, layout (bs ++ [u]) = ls ++ [block_text u].
Proof.
  destruct bs as [|t bs]; simpl.
  - by exists [].
  - rewrite flat_map_app. simpl. rewrite app_nil_r.
    exists (block_text t :: flat_map (fun u => gap u ++ [block_text u]) bs ++ gap u).
    simpl. by rewrite <- app_assoc.
Qed.

Lemma pop_blank_layout (bs : list node) :
  Forall (fun t => block_text t <> []) bs -> pop_blank (layout bs) = layout bs.
Proof.
  destruct bs as [|u bs _] using rev_ind; [done|].
  intros [_ [Hu _]%Forall_cons]%Forall_app.
  destruct (layout_snoc bs u) as [ls ->].
  apply drop_trailing_snoc. by destruct (block_text u).
Qed.

Lemma text_lines_layout (parse : str -> soup) (html : str) :
  text_lines parse html = layout (blocks (parse html)).
Proof.
  unfold text_lines. rewrite fold_emit_blocks. fold (blocks (parse html)).
  pose proof (blocks_have_text (parse html)) as Hbs.
  destruct (blocks (parse html)) as [|t ts]; [done|].
  pose proof Hbs as [Ht Hts]%Forall_cons.
  cbn [fold_left]. rewrite emit_block by done. rewrite andb_false_r. simpl.
  rewrite fold_emit_from by done.
  change ([block_text t; []] ++ ?x) with (block_text t :: [] :: x).
  rewrite blank_moves_right.
  change (block_text t :: ?x ++ [[]]) with ((block_text t :: x) ++ [[]]).
  unfold pop_blank. rewrite drop_trailing_app_all by (by repeat constructor).
  by apply (pop_blank_layout (t :: ts)).
Qed.

Lemma layout_adjacent (l1 l2 : list node) (t1 t2 : node) :
  exists before,
    layout (l1 ++ t1 :: t2 :: l2) =
      before ++ [block_text t1] ++ gap t2 ++ [block_text t2]
             ++ flat_map (fun u => gap u ++ [block_text u]) l2.
Proof.
  destruct l1 as [|a l1]; simpl.
  - exists []. by rewrite <- !app_assoc.
  - exists (block_text a :: flat_map (fun u => gap u ++ [block_text u]) l1 ++ gap t1).
    rewrite flat_map_app. simpl. by rewrite <- !app_assoc.
Qed.

Lemma join_head (sep : str) (x : str) (l : list str) (c : N) :
  head x = Some c -> head (join sep (x :: l)) = Some c.
Proof. destruct x; [done|]. by destruct l. Qed.

Lemma strip_starts_clean (s : str) : starts_clean (strip s).
Proof.
  intros c. unfold strip.
  pose proof (drop_leading_head isspace s) as Hhead.
  destruct (drop_trailing_prefix isspace (drop_leading isspace s)) as [r Hr].
  destruct (drop_trailing isspace (drop_leading isspace s)) as [|x k]; [done|].
  rewrite Hr in Hhead. simpl in *. by intros [= <-].
Qed.

Lemma block_text_starts_clean (t : node) : starts_clean (block_text t).
Proof.
  unfold block_text, get_text.
  pose proof (stripped_strings_clean t) as Hall.
  assert (Hstart : Forall starts_clean (stripped_strings t)).
  { unfold stripped_strings. clear Hall.
    induction (descendants t) as [|d ds IH]; simpl; [done|].
    apply Forall_app. split; [|done].
    destruct d as [s| |]; try done.
    destruct (truthy (strip s)); [|done].
    constructor; [apply strip_starts_clean|done]. }
  destruct (stripped_strings t) as [|p ps]; [done|].
  apply Forall_cons in Hall as [[Hne _] _].
  apply Forall_cons in Hstart as [Hp _].
  intros c Hc. apply Hp. destruct p as [|x p]; [done|].
  by destruct ps.
Qed.

(** X4. The lines of the output in closed form: the text of the first
    block, then for each further block one blank line, a second one when
    the block is a heading, and its text. *)
Theorem text_lines_closed_form (parse : str -> soup) (html : str) :
  text_lines parse html = layout (blocks (parse html)) /\
  html_to_text parse html = join [nl] (layout (blocks (parse html))).
Proof.
  split; [apply text_lines_layout|].
  unfold html_to_text. by rewrite text_lines_layout.
Qed.

(** X5. A paragraph is one blank line apart from the block before it: the
    two texts are separated by two line feeds. *)
Theorem paragraph_after_block_one_blank_line (parse : str -> soup) (html : str)
    (l1 l2 : list node) (t1 t2 : node)
    (Hsel : blocks (parse html) = l1 ++ t1 :: t2 :: l2)
    (Hpar : is_heading t2 = false) :
  (exists before after,
     text_lines parse html =
       before ++ [block_text t1; []; block_text t2] ++ after) /\
  (exists pre post,
     html_to_text parse html =
       pre ++ block_text t1 ++ [nl; nl] ++ block_text t2 ++ post).
Proof.
  assert (Hlines : exists before after,
     text_lines parse html =
       before ++ [block_text t1; []; block_text t2] ++ after).
  { rewrite text_lines_layout, Hsel.
    destruct (layout_adjacent l1 l2 t1 t2) as [before ->].
    unfold gap at 1. rewrite Hpar. by eauto. }
  split; [done|]. destruct Hlines as (before & after & Hlines).
  unfold html_to_text. rewrite Hlines.
  destruct (join_middle [nl] before [block_text t1; []; block_text t2] after)
    as (pre & post & -> & _); [done|].
  exists pre, post. cbn [join]. by rewrite <- !app_assoc.
Qed.

(** X6. The output is the empty string exactly when no selected element
    has text. *)
Theorem html_to_text_empty_iff (parse : str -> soup) (html : str) :
  html_to_text parse html = [] <-> blocks (parse html) = [].
Proof.
  unfold html_to_text. rewrite text_lines_layout.
  pose proof (blocks_have_text (parse html)) as Hbs.
  destruct (blocks (parse html)) as [|t ts]; [done|].
  apply Forall_cons in Hbs as [Ht _]. split; [|done].
  simpl. destruct (block_text t) as [|c x]; [done|].
  by destruct (flat_map _ ts).
Qed.

(** X7. The output does not start with white space: it starts with the
    text of the first block, also when that block is a heading. *)
Theorem html_to_text_starts_clean (parse : str -> soup) (html : str) :
  starts_clean (html_to_text parse html) /\
  (forall t ts, blocks (parse html) = t :: ts ->
     exists rest, html_to_text parse html = block_text t ++ rest).
Proof.
  unfold html_to_text. rewrite text_lines_layout. split.
  - pose proof (blocks_have_text (parse html)) as Hbs.
    destruct (blocks (parse html)) as [|t ts]; [done|].
    apply Forall_cons in Hbs as [Ht _]. intros c Hc.
    apply (block_text_starts_clean t). simpl in Hc.
    destruct (block_text t) as [|x k]; [done|].
    by destruct (flat_map _ ts).
  - intros t ts ->. simpl.
    destruct (flat_map _ ts) as [|l ls]; [exists []; by rewrite app_nil_r|].
    by eauto.
Qed.

Lemma find_all_tag (names : list str) (name : str) (cs rest : list node) :
  find_all names (Tag name cs :: rest) =
    (if existsb (str_eqb name) names then [Tag name cs] else [])
    ++ find_all names cs ++ find_all names rest.
Proof.
  unfold find_all, soup_descendants. simpl.
  rewrite List.filter_app. by destruct (existsb _ names).
Qed.

(** X8. An element selected inside a selected element is a block of its
    own, so its text comes out twice: once in the text of the outer
    element, once alone. *)
Theorem nested_block_is_emitted_twice (parse : str -> soup) (html : str)
    (outer inner : str) (cs : list node)
    (Hparse : parse html = [Tag outer [Tag inner cs]])
    (Houter : outer ∈ block_tags)
    (Hinner : inner ∈ block_tags)
    (Hleaf : find_all block_tags cs = [])
    (Htext : block_text (Tag inner cs) <> []) :
  block_text (Tag outer [Tag inner cs]) = block_text (Tag inner cs) /\
  text_lines parse html =
    [block_text (Tag inner cs)] ++ gap (Tag inner cs) ++ [block_text (Tag inner cs)].
Proof.
  assert (Hsame : block_text (Tag outer [Tag inner cs]) = block_text (Tag inner cs)).
  { unfold block_text, get_text, stripped_strings. simpl.
    by rewrite app_nil_r. }
  split; [done|].
  assert (Hsel : forall name, name ∈ block_tags ->
                   existsb (str_eqb name) block_tags = true).
  { intros name Hin. apply existsb_exists. exists name.
    split; [by apply list_elem_of_In|]. by apply bool_decide_eq_true. }
  rewrite text_lines_layout. unfold blocks.
  rewrite Hparse, !find_all_tag, Hleaf, (Hsel outer), (Hsel inner) by done.
  change (find_all block_tags []) with (@nil node). cbn [app List.filter].
  rewrite Hsame. destruct (block_text (Tag inner cs)) as [|c x] eqn:Hx; [done|].
  cbn [truthy layout flat_map]. by rewrite app_nil_r, Hsame, Hx.
Qed.

(** ** The link collector at its edges *)

Lemma load_loop_always_visible (w : web) (fuel n : nat) (links : gset str)
    (st : state) :
  (forall j, load_more (listing w j) = Visible) ->
  load_loop w fuel n links st = (None, clicked n fuel st).
Proof.
  intros Hvis. revert n links st.
  induction fuel as [|fuel IH]; intros n links st; simpl.
  - by rewrite clicked_0.
  - by rewrite Hvis, IH, clicked_S.
Qed.

(** X9. The pagination loop has no bound: on a listing whose control is
    visible in every state it is still running after any number of
    iterations, with one click per iteration, and the run does not reach
    the scraping loop. *)
Theorem always_visible_control_never_returns (parse : str -> soup) (rejects : str -> option exn)
    (w : web)
    (st : state) (fuel : nat)
    (Hvis : forall j, load_more (listing w j) = Visible) :
  collect_all_nominee_links w fuel st =
    (None, clicked 0 fuel (log (Goto NOMINEES_URL) st)) /\
  main parse rejects w fuel st = (None, clicked 0 fuel (log (Goto NOMINEES_URL) st)).
Proof.
  assert (Hc : collect_all_nominee_links w fuel st =
               (None, clicked 0 fuel (log (Goto NOMINEES_URL) st))).
  { unfold collect_all_nominee_links. by rewrite load_loop_always_visible. }
  split; [done|]. unfold main. by rewrite Hc.
Qed.

(** X10. Making an href absolute twice is making it absolute once: what
    [full_url] returns is kept as it is. *)
Theorem full_url_idempotent (href : str) :
  full_url (full_url href) = full_url href.
Proof.
  unfold full_url at 1. by rewrite full_url_absolute.
Qed.

(** X11. A listing whose cards have no href, or an empty one, gives the
    empty worklist: the run navigates to the listing, pages through it
    and ends without visiting a profile or touching a file. *)
Theorem listing_without_links (parse : str -> soup) (rejects : str -> option exn)
    (w : web) (k fuel : nat)
    (st : state)
    (Hstop : stops_after w 0 k)
    (Hfuel : (k < fuel)%nat)
    (Hnone : forall j h, (j <= k)%nat ->
                         Some h ∈ anchors (listing w j) -> h = []) :
  collect_all_nominee_links w fuel st =
    (Some [], clicked 0 k (log (Goto NOMINEES_URL) st)) /\
  main parse rejects w fuel st =
    (Some (Ok tt), clicked 0 k (log (Goto NOMINEES_URL) st)).
Proof.
  assert (Hempty : gather w 0 k ∅ = ∅).
  { apply set_eq. intros u. rewrite elem_of_gather. split; [|by left].
    intros [?|(j & Hj & h & Hin & Hne & _)]; [done|].
    exfalso. apply Hne. by apply (Hnone j). }
  assert (Hc : collect_all_nominee_links w fuel st =
               (Some [], clicked 0 k (log (Goto NOMINEES_URL) st))).
  { rewrite (collect_run w fuel k) by done. rewrite Hempty.
    unfold sorted. by rewrite elements_empty. }
  split; [done|]. unfold main. by rewrite Hc.
Qed.

(** ** The scraping loop *)

Section LoopProperties.
Variable parse : str -> soup.
Variable rejects : str -> option exn.
Variable w : web.

Local Abbreviation scraped := (scraped parse rejects w).
Local Abbreviation visit := (visit parse rejects w).
Local Abbreviation visit_all := (visit_all parse rejects w).
Local Abbreviation step_events := (step_events parse rejects w).
Local Abbreviation run_events := (run_events parse rejects w).

Lemma scrape_nominee_value (url : str) (st : state) (text : option str) :
  (scrape_nominee parse rejects w url st).1 = Ok text -> scraped url = text.
Proof. rewrite scrape_nominee_run. by intros [= ->]. Qed.

Lemma visit_trace (url : str) (st : state) :
  trace (visit url st) = trace st ++ step_events url st.
Proof.
  unfold visit, step_events, save.
  case_bool_decide; [by rewrite app_nil_r|].
  destruct (scraped url) as [[|c t]|]; simpl; by rewrite <- !app_assoc.
Qed.

Lemma visit_all_trace (links : list str) (st : state) :
  trace (visit_all st links) = trace st ++ run_events links st.
Proof.
  revert st. induction links as [|u links IH]; intros st; simpl.
  - by rewrite app_nil_r.
  - fold (visit_all (visit u st) links).
    by rewrite IH, visit_trace, <- app_assoc.
Qed.

Lemma step_events_cases (url : str) (st : state) :
  (is_Some (files st !! out_path url) /\ step_events url st = [] /\
   visit url st = st) \/
  (files st !! out_path url = None /\
   ((has_text (scraped url) = false /\ step_events url st = [Goto url; Sleep] /\
     files (visit url st) = files st) \/
    (exists text, scraped url = Some text /\ text <> [] /\
       step_events url st = [Goto url; WriteText (out_path url) text; Sleep] /\
       files (visit url st) = <[out_path url := text]> (files st)))).
Proof.
  unfold step_events, visit, save.
  case_bool_decide as Hsaved; [by left|]. right.
  assert (Hnone : files st !! out_path url = None).
  { destruct (files st !! out_path url) eqn:H; [|done]. exfalso. by eauto. }
  split; [done|]. destruct (scraped url) as [[|c t]|]; simpl.
  - by left.
  - right. by exists (c :: t).
  - by left.
Qed.

Lemma run_events_sleeps (links : list str) (st : state) :
  length (List.filter is_sleep (run_events links st)) =
  length (List.filter is_goto (run_events links st)).
Proof.
  revert st. induction links as [|u links IH]; intros st; simpl; [done|].
  rewrite !List.filter_app, !length_app, IH. f_equal.
  destruct (step_events_cases u st)
    as [(_ & -> & _)|(_ & [(_ & -> & _)|(text & _ & _ & -> & _)])]; done.
Qed.

Lemma run_events_writes (links : list str) (st : state) (path text : str) :
  WriteText path text ∈ run_events links st ->
  text <> [] /\ files st !! path = None /\
  files (visit_all st links) !! path = Some text /\
  exists u, u ∈ links /\ path = out_path u /\ scraped u = Some text.
Proof.
  revert st. induction links as [|u links IH]; intros st; simpl.
  - by intros ?%elem_of_nil.
  - fold (visit_all (visit u st) links).
    intros [Hin|Hin]%elem_of_app.
    + destruct (step_events_cases u st)
        as [(_ & He & _)|(Hnone & [(_ & He & _)|(t & Hs & Hne & He & Hf)])];
        rewrite He in Hin; revert Hin.
      * by intros ?%elem_of_nil.
      * by intros [[=]|[[=]|[]%elem_of_nil]%elem_of_cons]%elem_of_cons.
      * intros [[=]|[[= -> ->]|[[=]|[]%elem_of_nil]%elem_of_cons]%elem_of_cons]%elem_of_cons.
        split; [done|]. split; [done|]. split.
        -- apply visit_all_keeps. rewrite Hf. apply lookup_insert_eq.
        -- exists u. split; [by left|done].
    + destruct (IH _ Hin) as (Hne & Hnone & Hfile & v & Hv & Hpath & Hs).
      split; [done|]. split.
      * destruct (files st !! path) as [old|] eqn:Hold; [|done].
        by rewrite (visit_keeps parse rejects w u st path old) in Hnone.
      * split; [done|]. exists v. split; [by right|done].
Qed.

Lemma visit_created (u : str) (st : state) (path : str) :
  is_Some (files (visit u st) !! path) ->
  is_Some (files st !! path) \/ path = out_path u.
Proof.
  destruct (step_events_cases u st)
    as [(_ & _ & ->)|(_ & [(_ & _ & ->)|(t & _ & _ & _ & ->)])]; [by left..|].
  destruct (decide (path = out_path u)) as [->|Hne]; [by right|].
  rewrite lookup_insert_ne by done. by left.
Qed.

Lemma visit_all_created (links : list str) (st : state) (path : str) :
  is_Some (files (visit_all st links) !! path) ->
  is_Some (files st !! path) \/ exists u, u ∈ links /\ path = out_path u.
Proof.
  revert st. induction links as [|u links IH]; intros st; simpl; [by left|].
  fold (visit_all (visit u st) links).
  intros [Hsome|(v & Hv & ->)]%IH.
  - apply visit_created in Hsome as [? | ->]; [by left|].
    right. exists u. split; [by left|done].
  - right. exists v. split; [by right|done].
Qed.

Lemma run_events_order (links : list str) (st : state) :
  goto_urls (run_events links st) `sublist_of` links.
Proof.
  revert st. induction links as [|u links IH]; intros st; simpl; [done|].
  unfold goto_urls. rewrite omap_app. fold (goto_urls (run_events links (visit u st))).
  destruct (step_events_cases u st)
    as [(_ & -> & _)|(_ & [(_ & -> & _)|(text & _ & _ & -> & _)])]; simpl.
  - by apply sublist_cons.
  - by apply sublist_skip.
  - by apply sublist_skip.
Qed.

Lemma run_events_attempts (links : list str) (st : state) :
  attempts (run_events links st).
Proof.
  revert st. induction links as [|u links IH]; intros st; simpl.
  - constructor.
  - destruct (step_events_cases u st)
      as [(_ & -> & _)|(_ & [(_ & -> & _)|(text & _ & _ & -> & _)])]; simpl.
    + apply IH.
    + constructor. apply IH.
    + constructor. apply IH.
Qed.

Lemma visit_all_saved (links : list str) (st : state) :
  (forall u, u ∈ links -> is_Some (files st !! out_path u)) ->
  visit_all st links = st.
Proof.
  induction links as [|u links IH]; intros Hsaved; simpl; [done|].
  rewrite visit_saved by (apply Hsaved; by left).
  apply IH. intros v Hv. apply Hsaved. by right.
Qed.

(** X12. The loop sleeps once after every scrape attempt, whether it saved
    a file or not, and not after a skip: its events are a sequence of
    attempts, each a navigation, the write when there is one, and then one
    sleep; so its sleeps are as many as its navigations. *)
Theorem sleep_after_every_attempt (links : list str) (st : state) :
  exists st' evs,
    scrape_all parse rejects w links st = (Ok tt, st') /\ extends st st' evs /\
    attempts evs /\
    length (List.filter is_sleep evs) = length (List.filter is_goto evs).
Proof.
  exists (visit_all st links), (run_events links st).
  split; [apply scrape_all_run|]. split; [apply visit_all_trace|].
  split; [apply run_events_attempts|]. apply run_events_sleeps.
Qed.

(** X13. What the loop writes: every write stores a non-empty text, the one
    the scraper returns for a link of the worklist, at the output path of
    that link, where no file was; and the file holds that text when the
    loop ends. *)
Theorem writes_are_scraped_texts (links : list str) (st : state) :
  exists st' evs,
    scrape_all parse rejects w links st = (Ok tt, st') /\ extends st st' evs /\
    forall path text, WriteText path text ∈ evs ->
      text <> [] /\ files st !! path = None /\
      files st' !! path = Some text /\
      exists u, u ∈ links /\ path = out_path u /\
                forall st0, (scrape_nominee parse rejects w u st0).1 = Ok (Some text).
Proof.
  exists (visit_all st links), (run_events links st).
  split; [apply scrape_all_run|]. split; [apply visit_all_trace|].
  intros path text (Hne & Hnone & Hfile & u & Hu & Hpath & Hs)%run_events_writes.
  split; [done|]. split; [done|]. split; [done|].
  exists u. split; [done|]. split; [done|].
  intros st0. by rewrite scrape_nominee_run, Hs.
Qed.

(** X14. When the loop ends, every link of the worklist for which the
    scraper returns a non-empty text has an output file. *)
Theorem scraped_links_have_files (links : list str) (st : state)
    (u text : str)
    (Hin : u ∈ links)
    (Hscr : (scrape_nominee parse rejects w u st).1 = Ok (Some text))
    (Htext : text <> []) :
  is_Some (files (scrape_all parse rejects w links st).2 !! out_path u).
Proof.
  rewrite scrape_all_run. simpl.
  destruct (visit_all_settles parse rejects w links st u Hin) as [?|Hno]; [done|].
  apply scrape_nominee_value in Hscr. rewrite Hscr in Hno.
  by destruct text.
Qed.

(** X15. Links with the same output path share one file, and the first of
    them wins: once its text is saved, the links after it with that path
    are skipped without a visit. *)
Theorem same_path_first_link_wins (u : str) (rest : list str) (st : state)
    (text : str)
    (Hnew : files st !! out_path u = None)
    (Hscr : (scrape_nominee parse rejects w u st).1 = Ok (Some text))
    (Htext : text <> [])
    (Hsame : forall v, v ∈ rest -> out_path v = out_path u) :
  scrape_all parse rejects w (u :: rest) st =
    (Ok tt, {| files := <[out_path u := text]> (files st);
               trace := trace st ++ [Goto u; WriteText (out_path u) text; Sleep] |}).
Proof.
  rewrite scrape_all_run. f_equal. unfold visit_all. simpl.
  fold (visit_all (visit u st) rest).
  apply scrape_nominee_value in Hscr.
  assert (Hvisit : visit u st =
    {| files := <[out_path u := text]> (files st);
       trace := trace st ++ [Goto u; WriteText (out_path u) text; Sleep] |}).
  { rewrite visit_new by done. unfold save. rewrite Hscr.
    destruct text as [|c t]; [done|]. unfold log. simpl.
    by rewrite <- !app_assoc. }
  rewrite visit_all_saved; [done|].
  intros v Hv. rewrite Hvisit, (Hsame v Hv). simpl.
  rewrite lookup_insert_eq. by eauto.
Qed.

(** X16. The loop creates files only at the output paths of its links:
    a file there is when the loop ends was there before, or lies at the
    output path of a link of the worklist. *)
Theorem files_created_at_output_paths (links : list str) (st : state)
    (path : str)
    (Hfile : is_Some (files (scrape_all parse rejects w links st).2 !! path)) :
  is_Some (files st !! path) \/ exists u, u ∈ links /\ path = out_path u.
Proof.
  rewrite scrape_all_run in Hfile. by apply visit_all_created.
Qed.

(** X17. The loop visits profiles in the order of the worklist, each entry
    at most once: the URLs it navigates to form a sublist of the worklist. *)
Theorem visits_follow_worklist (links : list str) (st : state) :
  exists st' evs,
    scrape_all parse rejects w links st = (Ok tt, st') /\ extends st st' evs /\
    goto_urls evs `sublist_of` links.
Proof.
  exists (visit_all st links), (run_events links st).
  split; [apply scrape_all_run|]. split; [apply visit_all_trace|].
  apply run_events_order.
Qed.
End LoopProperties.

(** ** What the normalizer selects *)

Lemma find_all_selected (names : list str) (s : soup) (t : node) :
  t ∈ find_all names s ->
  exists name cs, t = Tag name cs /\ name ∈ names /\ t ∈ soup_descendants s.
Proof.
  unfold find_all. intros [Hin Hsel]%list_elem_of_In%filter_In.
  destruct t as [| |name cs]; [done..|]. exists name, cs. split; [done|].
  split; [|by apply list_elem_of_In].
  apply existsb_exists in Hsel as (x & Hx & Heq).
  apply bool_decide_eq_true in Heq as ->. by apply list_elem_of_In.
Qed.

(** X18. Text outside paragraphs and headings is dropped: when no tag of
    the fragment is a paragraph or a heading, the output is empty, whatever
    text the fragment holds. *)
Theorem text_outside_blocks_is_dropped (parse : str -> soup) (html : str)
    (Hnone : forall name cs, Tag name cs ∈ soup_descendants (parse html) ->
                             name ∉ block_tags) :
  html_to_text parse html = [].
Proof.
  assert (Hsel : find_all block_tags (parse html) = []).
  { destruct (find_all block_tags (parse html)) as [|t ts] eqn:Hfind; [done|].
    destruct (find_all_selected block_tags (parse html) t)
      as (name & cs & -> & Hname & Hin); [rewrite Hfind; by left|].
    by apply Hnone in Hin. }
  unfold html_to_text. rewrite text_lines_layout. unfold blocks. by rewrite Hsel.
Qed.

(** X19. On the selected elements the test [startswith("h")] separates
    the headings from the paragraphs: it holds exactly when the element is
    not a [p]. *)
Theorem heading_test_on_selected (s : soup) (t : node)
    (Hsel : t ∈ find_all block_tags s) :
  is_heading t = negb (str_eqb (tag_name t) (lit "p")).
Proof.
  destruct (find_all_selected block_tags s t Hsel) as (name & cs & -> & Hname & _).
  unfold is_heading. simpl. unfold block_tags in Hname.
  repeat (apply elem_of_cons in Hname as [->|Hname]; [by vm_compute|]).
  by apply elem_of_nil in Hname.
Qed.

(** ** The further properties on the example web *)

Lemma slug_ignores_trailing_slashes_witness :
  slugify_name (lit "https://afj.org/nominee/katie-lane" ++ replicate 2 slash)
    = slugify_name (lit "https://afj.org/nominee/katie-lane").
Proof.
  apply (slug_ignores_trailing_slashes (lit "https://afj.org/nominee/katie-lane") 2).
  apply (bool_decide_unpack _). vm_compute. exact I.
Defined.

Lemma paragraph_after_block_witness :
  exists pre post,
    html_to_text demo_parse katie_markup =
      pre ++ lit "Early life" ++ [nl; nl] ++ lit "Born in Montana ." ++ post.
Proof.
  apply (paragraph_after_block_one_blank_line demo_parse katie_markup
           [Tag (lit "h2") [NavigableString (lit "Biography")]] []
           (Tag (lit "h3") [NavigableString (lit "Early life")])
           (Tag (lit "p") [NavigableString (lit "Born in ");
                           Tag (lit "b") [NavigableString (lit "Montana")];
                           NavigableString (lit ".")]));
    vm_compute; reflexivity.
Defined.

Lemma nested_block_witness :
  text_lines nested_parse nested_markup = [lit "Note"; []; lit "Note"].
Proof.
  refine (proj2 (nested_block_is_emitted_twice nested_parse nested_markup
                   (lit "h2") (lit "p") [NavigableString (lit "Note")]
                   _ _ _ _ _)).
  - vm_compute. reflexivity.
  - apply (bool_decide_unpack _). vm_compute. exact I.
  - apply (bool_decide_unpack _). vm_compute. exact I.
  - vm_compute. reflexivity.
  - vm_compute. discriminate.
Defined.

Lemma always_visible_witness :
  main demo_parse demo_rejects busy_web 3 fresh =
    (None, clicked 0 3 (log (Goto NOMINEES_URL) fresh)).
Proof.
  apply (always_visible_control_never_returns demo_parse demo_rejects busy_web fresh 3).
  intros j. reflexivity.
Defined.

Lemma listing_without_links_witness :
  main demo_parse demo_rejects bare_web 1 fresh =
    (Some (Ok tt), clicked 0 0 (log (Goto NOMINEES_URL) fresh)).
Proof.
  apply (listing_without_links demo_parse demo_rejects bare_web 0 1 fresh).
  - split; [intros j Hj; lia|discriminate].
  - lia.
  - intros j h _ Hin. simpl in Hin.
    apply elem_of_cons in Hin as [Heq|Hin]; [discriminate|].
    apply list_elem_of_singleton in Hin. congruence.
Defined.

Lemma scraped_links_have_files_witness :
  is_Some (files (scrape_all demo_parse demo_rejects demo_web [jane; katie] fresh).2 !! out_path katie).
Proof.
  apply (scraped_links_have_files demo_parse demo_rejects demo_web [jane; katie] fresh katie
           (html_to_text demo_parse katie_markup)).
  - apply (bool_decide_unpack _). vm_compute. exact I.
  - vm_compute. reflexivity.
  - vm_compute. discriminate.
Defined.

Lemma same_path_first_link_wins_witness :
  scrape_all demo_parse demo_rejects demo_web
    [katie; lit "https://afj.org/nominee/katie-lane//"] fresh =
    (Ok tt,
     {| files := <[out_path katie := html_to_text demo_parse katie_markup]> (files fresh);
        trace := trace fresh ++
                 [Goto katie;
                  WriteText (out_path katie) (html_to_text demo_parse katie_markup);
                  Sleep] |}).
Proof.
  apply (same_path_first_link_wins demo_parse demo_rejects demo_web katie
           [lit "https://afj.org/nominee/katie-lane//"] fresh
           (html_to_text demo_parse katie_markup)).
  - vm_compute. reflexivity.
  - vm_compute. reflexivity.
  - vm_compute. discriminate.
  - intros v Hv. apply list_elem_of_singleton in Hv. rewrite Hv.
    vm_compute. reflexivity.
Defined.

Lemma files_created_witness :
  is_Some (files fresh !! out_path katie) \/
  exists u, u ∈ [jane; katie] /\ out_path katie = out_path u.
Proof.
  apply (files_created_at_output_paths demo_parse demo_rejects demo_web [jane; katie] fresh
           (out_path katie)).
  vm_compute. eexists. reflexivity.
Defined.

Lemma text_outside_blocks_witness :
  html_to_text nested_parse list_markup = [].
Proof.
  apply (text_outside_blocks_is_dropped nested_parse list_markup).
  intros name cs Hin. vm_compute in Hin.
  repeat (apply elem_of_cons in Hin as [Heq|Hin];
          [inversion Heq; apply (bool_decide_unpack _); vm_compute; exact I|]).
  by apply elem_of_nil in Hin.
Defined.

Lemma heading_test_witness :
  is_heading (Tag (lit "h3") [NavigableString (lit "Early life")]) =
    negb (str_eqb (tag_name (Tag (lit "h3") [NavigableString (lit "Early life")]))
                  (lit "p")).
Proof.
  apply (heading_test_on_selected katie_soup).
  vm_compute. right. left.
Defined.
